(** * The Raft consensus module of praft (src/raft.go), embedded in Rocq

    The Go code is a single mutex-protected record, [ConsensusModule], with
    handlers that read and write it.  It is embedded here as it is written:

    - Go's [int] is 64 bits wide: integers are [Z], and every arithmetic
      operation of the source is written with its wrap-around ([int_add],
      [int_sub], [int_mul]);
    - slices are lists; indexing and slicing outside of the bounds is a
      run-time panic, so every handler returns an [Outcome];
    - [map[int]int] is a [gmap Z Z] read with Go's zero default;
    - the handlers run in a small monad [M] that threads the record, reads
      the clock, and writes the trace of the synchronisation events
      (mutex, channel sends, goroutines started) in program order;
    - [cm.dlog] only prints diagnostics and is left out. *)

From Stdlib Require Import ZArith Lia.
From stdpp Require Import base tactics option list gmap strings.

Local Open Scope Z_scope.

(** ** Go's [int] *)

Definition int_min : Z := - 2 ^ 63.
Definition int_max : Z := 2 ^ 63 - 1.

(** Two's complement wrap-around of a 64 bit signed integer. *)
Definition wrap (z : Z) : Z := (z + 2 ^ 63) mod 2 ^ 64 - 2 ^ 63.

Definition int_add (a b : Z) : Z := wrap (a + b).
Definition int_sub (a b : Z) : Z := wrap (a - b).
Definition int_mul (a b : Z) : Z := wrap (a * b).

(** Wrap-around of an [int32] (the vote counter of an election). *)
Definition wrap32 (z : Z) : Z := (z + 2 ^ 31) mod 2 ^ 32 - 2 ^ 31.
#[global] Arguments wrap : simpl never.

Definition is_int (z : Z) : Prop := int_min <= z <= int_max.

(** [len(s)]; a Go slice never holds more than [int_max] elements, which the
    theorems state as [slice_ok] where the arithmetic depends on it. *)
Definition len {A : Type} (l : list A) : Z := Z.of_nat (length l).

Definition slice_ok {A : Type} (l : list A) : Prop := len l <= int_max.

(** Modelled from the spec: [intMin] is called by AppendEntries but defined
    outside of raft.go; the spec gives it as
    "commitIndex = min(leaderCommit, len(log) - 1)". *)
Definition intMin (a b : Z) : Z := Z.min a b.

(** ** Outcomes of a run *)

Inductive Outcome (A : Type) : Type :=
| Ok (a : A)
| Panic
| OutOfFuel.
Arguments Ok {A} a.
Arguments Panic {A}.
Arguments OutOfFuel {A}.

(** [s[i]]: panics outside of [0 <= i < len(s)]. *)
Definition index {A : Type} (l : list A) (i : Z) : Outcome A :=
  if i <? 0 then Panic
  else match l !! Z.to_nat i with
       | Some x => Ok x
       | None => Panic
       end.

(** [s[i:]]: panics outside of [0 <= i <= len(s)]. *)
Definition sliceFrom {A : Type} (l : list A) (i : Z) : Outcome (list A) :=
  if (i <? 0) || (len l <? i) then Panic else Ok (drop (Z.to_nat i) l).

(** [s[:i]]: the code only takes prefixes within the length (the capacity
    beyond it is not modelled). *)
Definition sliceTo {A : Type} (l : list A) (i : Z) : Outcome (list A) :=
  if (i <? 0) || (len l <? i) then Panic else Ok (take (Z.to_nat i) l).

(** [m[k]] on a [map[int]int]: zero when the key is absent. *)
Definition mapGet (m : gmap Z Z) (k : Z) : Z := default 0 (m !! k).

(** ** Data model *)

Inductive CMState : Type := Follower | Candidate | Leader | Dead.

#[global] Instance CMState_eq_dec : EqDecision CMState.
Proof. solve_decision. Defined.

(** [time.Time], as a count of clock ticks. *)
Definition Time : Type := Z.

(** The internal channels of the consensus module. *)
Inductive Chan : Type := newCommitReadyChan | triggerAEChan.

#[global] Instance Chan_eq_dec : EqDecision Chan.
Proof. solve_decision. Defined.

(** A statement [ch <- v] is a blocking send; a send inside a [select] with
    a [default] branch would be a non-blocking one. *)
Inductive SendKind : Type := Blocking | NonBlocking.

#[global] Instance SendKind_eq_dec : EqDecision SendKind.
Proof. solve_decision. Defined.

(** Goroutines the modelled functions start. *)
Inductive Goroutine : Type :=
| runElectionTimerGo
| requestVoteGo (peerId : Z) (savedCurrentTerm : Z)
| heartbeatGo.

Inductive Event : Type :=
| EvLock
| EvUnlock
| EvSend (k : SendKind) (c : Chan)
| EvGo (t : Goroutine).

Section Raft.

(** The type of client commands ([interface{}] in the source, never
    inspected by the consensus module). *)
Context {Cmd : Type}.

Record LogEntry : Type := mkLogEntry {
  Command : Cmd;
  Term : Z
}.

(** What [gob] wrote under a storage key, represented by the value that was
    encoded ([gob]'s decoder inverts its encoder). *)
Inductive Stored : Type :=
| GobInt (z : Z)
| GobLog (l : list LogEntry).

Record ConsensusModule : Type := mkCM {
  cm_id : Z;                      (* id *)
  peerIds : list Z;
  (* persistent Raft state *)
  currentTerm : Z;
  votedFor : Z;
  log : list LogEntry;
  (* volatile state *)
  commitIndex : Z;
  lastApplied : Z;
  state : CMState;
  electionResetEvent : Time;
  (* volatile Raft leader state *)
  nextIndex : gmap Z Z;
  matchIndex : gmap Z Z;
  (* persistence: the contents of the Storage collaborator *)
  storage : gmap string Stored
}.

Definition set_currentTerm (v : Z) (cm : ConsensusModule) : ConsensusModule :=
  mkCM (cm_id cm) (peerIds cm) v (votedFor cm) (log cm) (commitIndex cm)
       (lastApplied cm) (state cm) (electionResetEvent cm) (nextIndex cm)
       (matchIndex cm) (storage cm).
Definition set_votedFor (v : Z) (cm : ConsensusModule) : ConsensusModule :=
  mkCM (cm_id cm) (peerIds cm) (currentTerm cm) v (log cm) (commitIndex cm)
       (lastApplied cm) (state cm) (electionResetEvent cm) (nextIndex cm)
       (matchIndex cm) (storage cm).
Definition set_log (v : list LogEntry) (cm : ConsensusModule) : ConsensusModule :=
  mkCM (cm_id cm) (peerIds cm) (currentTerm cm) (votedFor cm) v (commitIndex cm)
       (lastApplied cm) (state cm) (electionResetEvent cm) (nextIndex cm)
       (matchIndex cm) (storage cm).
Definition set_commitIndex (v : Z) (cm : ConsensusModule) : ConsensusModule :=
  mkCM (cm_id cm) (peerIds cm) (currentTerm cm) (votedFor cm) (log cm) v
       (lastApplied cm) (state cm) (electionResetEvent cm) (nextIndex cm)
       (matchIndex cm) (storage cm).
Definition set_state (v : CMState) (cm : ConsensusModule) : ConsensusModule :=
  mkCM (cm_id cm) (peerIds cm) (currentTerm cm) (votedFor cm) (log cm)
       (commitIndex cm) (lastApplied cm) v (electionResetEvent cm)
       (nextIndex cm) (matchIndex cm) (storage cm).
Definition set_electionResetEvent (v : Time) (cm : ConsensusModule) : ConsensusModule :=
  mkCM (cm_id cm) (peerIds cm) (currentTerm cm) (votedFor cm) (log cm)
       (commitIndex cm) (lastApplied cm) (state cm) v (nextIndex cm)
       (matchIndex cm) (storage cm).
Definition set_nextIndex (v : gmap Z Z) (cm : ConsensusModule) : ConsensusModule :=
  mkCM (cm_id cm) (peerIds cm) (currentTerm cm) (votedFor cm) (log cm)
       (commitIndex cm) (lastApplied cm) (state cm) (electionResetEvent cm) v
       (matchIndex cm) (storage cm).
Definition set_matchIndex (v : gmap Z Z) (cm : ConsensusModule) : ConsensusModule :=
  mkCM (cm_id cm) (peerIds cm) (currentTerm cm) (votedFor cm) (log cm)
       (commitIndex cm) (lastApplied cm) (state cm) (electionResetEvent cm)
       (nextIndex cm) v (storage cm).
Definition set_storage (v : gmap string Stored) (cm : ConsensusModule) : ConsensusModule :=
  mkCM (cm_id cm) (peerIds cm) (currentTerm cm) (votedFor cm) (log cm)
       (commitIndex cm) (lastApplied cm) (state cm) (electionResetEvent cm)
       (nextIndex cm) (matchIndex cm) v.

(** Modelled from the spec: the Storage collaborator, whose interface is
    declared outside of raft.go, is "a key/value interface with three
    operations: HasData() -> boolean; Get(key) -> (bytes, found);
    Set(key, bytes)".  Its contents are a finite map; [Set] writes a key
    and [Get] reads it. *)
Definition storageSet (key : string) (v : Stored) (s : gmap string Stored)
    : gmap string Stored :=
  <[key := v]> s.
Definition storageGet (key : string) (s : gmap string Stored) : option Stored :=
  s !! key.

(** The record [NewConsensusModule] builds when the storage holds no data
    (raft.go lines 94-107; the zero value of [electionResetEvent] is set by
    the goroutine waiting for [ready]). *)
Definition NewConsensusModule (id : Z) (peers : list Z)
    (store : gmap string Stored) : ConsensusModule :=
  mkCM id peers 0 (-1) [] (-1) (-1) Follower 0 ∅ ∅ store.

(** ** The monad of the handlers

    A computation reads the clock ([time.Now()], one reading per critical
    section), transforms the record, and emits synchronisation events. *)
Definition M (A : Type) : Type :=
  Time → ConsensusModule → Outcome (A * ConsensusModule * list Event).

Definition ret {A : Type} (a : A) : M A := λ _ cm, Ok (a, cm, []).

Definition bind {A B : Type} (m : M A) (k : A → M B) : M B :=
  λ now cm,
    match m now cm with
    | Ok (a, cm1, tr1) =>
        match k a now cm1 with
        | Ok (b, cm2, tr2) => Ok (b, cm2, tr1 ++ tr2)
        | Panic => Panic
        | OutOfFuel => OutOfFuel
        end
    | Panic => Panic
    | OutOfFuel => OutOfFuel
    end.

Definition get : M ConsensusModule := λ _ cm, Ok (cm, cm, []).
Definition modify (f : ConsensusModule → ConsensusModule) : M unit :=
  λ _ cm, Ok (tt, f cm, []).
Definition emit (e : Event) : M unit := λ _ cm, Ok (tt, cm, [e]).
Definition timeNow : M Time := λ now cm, Ok (now, cm, []).
Definition lift {A : Type} (o : Outcome A) : M A :=
  λ _ cm,
    match o with
    | Ok a => Ok (a, cm, [])
    | Panic => Panic
    | OutOfFuel => OutOfFuel
    end.

End Raft.

Arguments LogEntry : clear implicits.
Arguments Stored : clear implicits.
Arguments ConsensusModule : clear implicits.
Arguments M : clear implicits.

#[global] Instance M_ret {Cmd : Type} : MRet (M Cmd) := @ret Cmd.
#[global] Instance M_bind {Cmd : Type} : MBind (M Cmd) :=
  λ A B k m, bind m k.

(** ** RPC records (the field [Term] of each Go struct carries a prefix
    here, since Rocq's field names are global) *)

Record RequestVoteArgs : Type := mkRequestVoteArgs {
  rvTerm : Z;
  CandidateId : Z;
  LastLogIndex : Z;
  LastLogTerm : Z
}.

Record RequestVoteReply : Type := mkRequestVoteReply {
  rvReplyTerm : Z;
  VotedGranted : bool
}.

Record AppendEntriesArgs (Cmd : Type) : Type := mkAppendEntriesArgs {
  aeTerm : Z;
  LeaderId : Z;
  PrevLogIndex : Z;
  PrevLogTerm : Z;
  Entries : list (LogEntry Cmd);
  LeaderCommit : Z
}.
Arguments mkAppendEntriesArgs {Cmd} _ _ _ _ _ _.
Arguments aeTerm {Cmd} _.
Arguments LeaderId {Cmd} _.
Arguments PrevLogIndex {Cmd} _.
Arguments PrevLogTerm {Cmd} _.
Arguments Entries {Cmd} _.
Arguments LeaderCommit {Cmd} _.

Record AppendEntriesReply : Type := mkAppendEntriesReply {
  aeReplyTerm : Z;
  Success : bool
}.

Definition set_VotedGranted (b : bool) (r : RequestVoteReply) : RequestVoteReply :=
  mkRequestVoteReply (rvReplyTerm r) b.
Definition set_rvReplyTerm (t : Z) (r : RequestVoteReply) : RequestVoteReply :=
  mkRequestVoteReply t (VotedGranted r).
Definition set_Success (b : bool) (r : AppendEntriesReply) : AppendEntriesReply :=
  mkAppendEntriesReply (aeReplyTerm r) b.
Definition set_aeReplyTerm (t : Z) (r : AppendEntriesReply) : AppendEntriesReply :=
  mkAppendEntriesReply t (Success r).

(** ** The functions of raft.go *)

Section Handlers.

Context {Cmd : Type}.

Definition lock : M Cmd unit := emit EvLock.        (* cm.mu.Lock() *)
Definition unlock : M Cmd unit := emit EvUnlock.    (* cm.mu.Unlock() *)
(** [ch <- struct{}{}] on a channel that is open; what a send does on the
    channel [Stop] has closed is [withChannel]. *)
Definition send (c : Chan) : M Cmd unit := emit (EvSend Blocking c).
(** [go f(...)] *)
Definition go (t : Goroutine) : M Cmd unit := emit (EvGo t).

(** [defer cm.mu.Unlock()]: the mutex is released when the body returns. *)
Definition deferUnlock {A : Type} (body : M Cmd A) : M Cmd A :=
  r ← body; unlock;; mret r.

(** [for _, x := range l { f(x) }] *)
Fixpoint forRange {A : Type} (l : list A) (f : A → M Cmd unit) : M Cmd unit :=
  match l with
  | [] => mret tt
  | x :: l' => f x;; forRange l' f
  end.

(** raft.go 422-440; the [gob] encoders are taken to succeed. *)
Definition persistToStorage : M Cmd unit :=
  modify (λ cm, set_storage
                  (storageSet "currentTerm" (GobInt (currentTerm cm)) (storage cm)) cm);;
  modify (λ cm, set_storage
                  (storageSet "votedFor" (GobInt (votedFor cm)) (storage cm)) cm);;
  modify (λ cm, set_storage
                  (storageSet "log" (GobLog (log cm)) (storage cm)) cm).

(** raft.go 128-144. *)
Definition Submit (command : Cmd) : M Cmd bool :=
  lock;;
  cm ← get;
  if decide (state cm = Leader) then
    modify (λ cm, set_log (log cm ++ [mkLogEntry command (currentTerm cm)]) cm);;
    persistToStorage;;
    unlock;;
    send triggerAEChan;;
    mret true
  else
    unlock;;
    mret false.

(** raft.go 199-252, the part that runs in the caller (who holds the mutex);
    the goroutines it starts are recorded as events. *)
Definition startElection : M Cmd unit :=
  modify (set_state Candidate);;
  modify (λ cm, set_currentTerm (int_add (currentTerm cm) 1) cm);;
  cm ← get;
  let savedCurrentTerm := currentTerm cm in
  now ← timeNow;
  modify (set_electionResetEvent now);;
  modify (λ cm, set_votedFor (cm_id cm) cm);;
  forRange (peerIds cm) (λ peerId, go (requestVoteGo peerId savedCurrentTerm));;
  go runElectionTimerGo.

(** raft.go 255-263. *)
Definition becomeFollower (term : Z) : M Cmd unit :=
  modify (set_state Follower);;
  modify (set_currentTerm term);;
  modify (set_votedFor (-1));;
  now ← timeNow;
  modify (set_electionResetEvent now);;
  go runElectionTimerGo.

(** raft.go 605-612. *)
Definition lastLogIndexAndTerm : M Cmd (Z * Z) :=
  cm ← get;
  if len (log cm) >? 0 then
    let lastIndex := int_sub (len (log cm)) 1 in
    e ← lift (index (log cm) lastIndex);
    mret (lastIndex, Term e)
  else
    mret (-1, -1).

(** raft.go 296-341, the part that runs in the caller (who holds the
    mutex); the heartbeat loop it starts is recorded as an event. *)
Definition startLeader : M Cmd unit :=
  modify (set_state Leader);;
  cm ← get;
  forRange (peerIds cm) (λ peerId,
    modify (λ cm, set_nextIndex (<[peerId := len (log cm)]> (nextIndex cm)) cm);;
    modify (λ cm, set_matchIndex (<[peerId := -1]> (matchIndex cm)) cm));;
  go heartbeatGo.


(** raft.go 223-247: what that goroutine does with the peer's [reply] (the
    call returned no error).  [votesReceived] is the [int32] counter the
    goroutines of one election share; its new value is returned. *)
Definition startElection_reply (savedCurrentTerm votesReceived : Z)
    (reply : RequestVoteReply) : M Cmd Z :=
  lock;;
  deferUnlock (
    cm ← get;
    if bool_decide (state cm ≠ Candidate) then mret votesReceived
    else if rvReplyTerm reply >? savedCurrentTerm then
      becomeFollower (rvReplyTerm reply);;
      mret votesReceived
    else if rvReplyTerm reply =? savedCurrentTerm then
      if VotedGranted reply then
        let votesReceived := wrap32 (votesReceived + 1) in
        let votes := votesReceived in
        (if int_mul votes 2 >? int_add (len (peerIds cm)) 1
         then startLeader else mret tt);;
        mret votesReceived
      else mret votesReceived
    else mret votesReceived).

(** raft.go 489-517.  [reply] is the record behind the caller's pointer. *)
Definition RequestVote (args : RequestVoteArgs) (reply : RequestVoteReply)
    : M Cmd RequestVoteReply :=
  lock;;
  deferUnlock (
    cm ← get;
    if decide (state cm = Dead) then mret reply
    else
      '(lastLogIndex, lastLogTerm) ← lastLogIndexAndTerm;
      (if rvTerm args >? currentTerm cm
       then becomeFollower (rvTerm args) else mret tt);;
      cm ← get;
      reply ←
        (if (currentTerm cm =? rvTerm args)
            && ((votedFor cm =? -1) || (votedFor cm =? CandidateId args))
            && ((LastLogTerm args >? lastLogTerm)
                || ((LastLogTerm args =? lastLogTerm)
                    && (LastLogIndex args >=? lastLogIndex)))
         then
           modify (set_votedFor (CandidateId args));;
           now ← timeNow;
           modify (set_electionResetEvent now);;
           mret (set_VotedGranted true reply)
         else
           mret (set_VotedGranted false reply));
      cm ← get;
      mret (set_rvReplyTerm (currentTerm cm) reply)).

(** raft.go 570-579: the loop that skips the incoming entries the log
    already holds.  Every round but the last advances [newEntriesIndex]
    inside [args.Entries], so [S (length entries)] rounds of fuel suffice. *)
Fixpoint reconcileLoop (fuel : nat) (log entries : list (LogEntry Cmd))
    (logInsertIndex newEntriesIndex : Z) : Outcome (Z * Z) :=
  match fuel with
  | O => OutOfFuel
  | S fuel' =>
      if (logInsertIndex >=? len log) || (newEntriesIndex >=? len entries)
      then Ok (logInsertIndex, newEntriesIndex)
      else
        match index log logInsertIndex, index entries newEntriesIndex with
        | Ok a, Ok b =>
            if negb (Term a =? Term b)
            then Ok (logInsertIndex, newEntriesIndex)
            else reconcileLoop fuel' log entries
                   (int_add logInsertIndex 1) (int_add newEntriesIndex 1)
        | _, _ => Panic
        end
  end.

#[global] Arguments reconcileLoop : simpl never.

(** raft.go 536-598. *)
Definition AppendEntries (args : AppendEntriesArgs Cmd) (reply : AppendEntriesReply)
    : M Cmd AppendEntriesReply :=
  lock;;
  deferUnlock (
    cm ← get;
    if decide (state cm = Dead) then mret reply
    else
      (if aeTerm args >? currentTerm cm
       then becomeFollower (aeTerm args) else mret tt);;
      let reply := set_Success false reply in
      cm ← get;
      reply ←
        (if aeTerm args =? currentTerm cm then
           (if decide (state cm ≠ Follower)
            then becomeFollower (aeTerm args) else mret tt);;
           now ← timeNow;
           modify (set_electionResetEvent now);;
           cm ← get;
           consistent ←
             (if PrevLogIndex args =? -1 then mret true
              else if PrevLogIndex args <? len (log cm) then
                e ← lift (index (log cm) (PrevLogIndex args));
                mret (PrevLogTerm args =? Term e)
              else mret false);
           if consistent : bool then
             let reply := set_Success true reply in
             '(logInsertIndex, newEntriesIndex) ←
               lift (reconcileLoop (S (length (Entries args))) (log cm)
                       (Entries args) (int_add (PrevLogIndex args) 1) 0);
             (if newEntriesIndex <? len (Entries args) then
                prefix ← lift (sliceTo (log cm) logInsertIndex);
                rest ← lift (sliceFrom (Entries args) newEntriesIndex);
                modify (set_log (prefix ++ rest))
              else mret tt);;
             cm ← get;
             (if LeaderCommit args >? commitIndex cm then
                modify (set_commitIndex
                          (intMin (LeaderCommit args) (int_sub (len (log cm)) 1)));;
                send newCommitReadyChan
              else mret tt);;
             mret reply
           else mret reply
         else mret reply);
      cm ← get;
      mret (set_aeReplyTerm (currentTerm cm) reply)).

(** raft.go 390-394: the inner loop counting the peers whose [matchIndex]
    has reached [i], from the initial [matchCount]. *)
Fixpoint countMatches (peers : list Z) (matchIdx : gmap Z Z) (i : Z)
    (matchCount : Z) : Z :=
  match peers with
  | [] => matchCount
  | peerId :: peers' =>
      countMatches peers' matchIdx i
        (if mapGet matchIdx peerId >=? i then int_add matchCount 1 else matchCount)
  end.

(** raft.go 387-399: [for i := ...; i < len(cm.log); i++], entered at [i].
    Every round reads [cm.log[i]], so at most [len(cm.log)] rounds run and
    [S (length (log cm))] rounds of fuel suffice. *)
Fixpoint commitScan (fuel : nat) (i : Z) : M Cmd unit :=
  match fuel with
  | O => lift OutOfFuel
  | S fuel' =>
      cm ← get;
      if i <? len (log cm) then
        e ← lift (index (log cm) i);
        (if Term e =? currentTerm cm then
           let matchCount := countMatches (peerIds cm) (matchIndex cm) i 1 in
           if int_mul matchCount 2 >? int_add (len (peerIds cm)) 1
           then modify (set_commitIndex i) else mret tt
         else mret tt);;
        commitScan fuel' (int_add i 1)
      else mret tt
  end.

#[global] Arguments commitScan : simpl never.

(** raft.go 351-368: what the goroutine of sendAppendEntries for [peerId]
    reads under the mutex before it calls the peer: [ni] and the request. *)
Definition sendAppendEntries_args (peerId savedCurrentTerm : Z)
    : M Cmd (Z * AppendEntriesArgs Cmd) :=
  lock;;
  cm ← get;
  let ni := mapGet (nextIndex cm) peerId in
  let preLogIndex := int_sub ni 1 in
  preLogTerm ←
    (if preLogIndex >=? 0
     then e ← lift (index (log cm) preLogIndex); mret (Term e)
     else mret (-1));
  entries ← lift (sliceFrom (log cm) ni);
  let args := mkAppendEntriesArgs savedCurrentTerm (cm_id cm) preLogIndex
                preLogTerm entries (commitIndex cm) in
  unlock;;
  mret (ni, args).

(** raft.go 372-412: what that goroutine does with the peer's [reply] (the
    call returned no error); [ni] and [entries] are the values read by
    [sendAppendEntries_args] when the request was built. *)
Definition sendAppendEntries_reply (peerId ni : Z) (entries : list (LogEntry Cmd))
    (savedCurrentTerm : Z) (reply : AppendEntriesReply) : M Cmd unit :=
  lock;;
  deferUnlock (
    if aeReplyTerm reply >? savedCurrentTerm then
      becomeFollower (aeReplyTerm reply)
    else
      cm ← get;
      if bool_decide (state cm = Leader) && (savedCurrentTerm =? aeReplyTerm reply) then
        if Success reply then
          modify (λ cm, set_nextIndex
                          (<[peerId := int_add ni (len entries)]> (nextIndex cm)) cm);;
          modify (λ cm, set_matchIndex
                          (<[peerId := int_sub (mapGet (nextIndex cm) peerId) 1]>
                             (matchIndex cm)) cm);;
          cm ← get;
          let savedCommitIndex := commitIndex cm in
          commitScan (S (length (log cm))) (int_add (commitIndex cm) 1);;
          cm ← get;
          if negb (commitIndex cm =? savedCommitIndex) then
            send newCommitReadyChan;;
            send triggerAEChan
          else mret tt
        else
          modify (λ cm, set_nextIndex (<[peerId := int_sub ni 1]> (nextIndex cm)) cm)
      else mret tt).

End Handlers.

(** ** The remaining functions of raft.go *)

(** [time.Millisecond], a [time.Duration] in nanoseconds. *)
Definition Millisecond : Z := 1000000.

(** [time.Since(t)] at the clock reading [now]: the difference as a
    [time.Duration], which Go saturates to the range of an [int64]. *)
Definition since (now t : Time) : Z := Z.max int_min (Z.min int_max (now - t)).

(** [s[lo:hi]]: panics outside of [0 <= lo <= hi <= len(s)] (the capacity
    beyond the length is not modelled). *)
Definition slice {A : Type} (l : list A) (lo hi : Z) : Outcome (list A) :=
  if (lo <? 0) || (hi <? lo) || (len l <? hi) then Panic
  else Ok (take (Z.to_nat (hi - lo)) (drop (Z.to_nat lo) l)).

(** raft.go 615-621.  [env] is the value of RAFT_FORCE_MORE_REELECTION;
    [intn3] and [intn150] are what [rand.Intn(3)] and [rand.Intn(150)]
    return when they are called. *)
Definition electionTimeout (env : string) (intn3 intn150 : Z) : Z :=
  if (Z.of_nat (String.length env) >? 0) && (intn3 =? 0)
  then int_mul 150 Millisecond
  else int_mul (int_add 150 intn150) Millisecond.

(** raft.go 53-57. *)
Record CommitEntry (Cmd : Type) : Type := mkCommitEntry {
  ceCommand : Cmd;
  ceIndex : Z;
  ceTerm : Z
}.
Arguments mkCommitEntry {Cmd} _ _ _.
Arguments ceCommand {Cmd} _.
Arguments ceIndex {Cmd} _.
Arguments ceTerm {Cmd} _.

(** How a start-up that finds data in the storage ends: with the record
    restored, or in [log.Fatal] (the process exits). *)
Inductive FatalError : Type :=
| NotFound (msg : string)
| DecodeFailed (key : string).

Inductive StartUp (A : Type) : Type :=
| Restored (a : A)
| Fatal (e : FatalError).
Arguments Restored {A} a.
Arguments Fatal {A} e.

Section MoreHandlers.

Context {Cmd : Type}.

Definition set_lastApplied (v : Z) (cm : ConsensusModule Cmd) : ConsensusModule Cmd :=
  mkCM (cm_id cm) (peerIds cm) (currentTerm cm) (votedFor cm) (log cm)
       (commitIndex cm) v (state cm) (electionResetEvent cm) (nextIndex cm)
       (matchIndex cm) (storage cm).

(** raft.go 147-151. *)
Definition Report : M Cmd (Z * Z * bool) :=
  lock;;
  deferUnlock (
    cm ← get;
    mret (cm_id cm, currentTerm cm, bool_decide (state cm = Leader))).

(** raft.go 154-160.  The new-commit-ready channel is not part of the
    record: [closed] says whether it was closed before the call (closing it
    again panics), and the result says that it is closed afterwards. *)
Definition Stop (closed : bool) : M Cmd bool :=
  lock;;
  deferUnlock (
    modify (set_state Dead);;
    if closed then lift Panic else mret true).

(** raft.go 164-167: what runElectionTimer reads before its loop. *)
Definition runElectionTimer_start : M Cmd Z :=
  lock;;
  cm ← get;
  let termStarted := currentTerm cm in
  unlock;;
  mret termStarted.

(** raft.go 173-194: one round of the loop of runElectionTimer, after the
    ticker fired.  The result says whether the timer returns. *)
Definition runElectionTimer_tick (timeoutDuration termStarted : Z) : M Cmd bool :=
  lock;;
  cm ← get;
  if bool_decide (state cm ≠ Candidate) && bool_decide (state cm ≠ Follower) then
    unlock;;
    mret true
  else if negb (termStarted =? currentTerm cm) then
    unlock;;
    mret true
  else
    now ← timeNow;
    let elapsed := since now (electionResetEvent cm) in
    if elapsed >=? timeoutDuration then
      startElection;;
      unlock;;
      mret true
    else
      unlock;;
      mret false.

(** raft.go 269-286: one round of the loop of commitLoop, after a signal
    was received on the new-commit-ready channel.  The result is the list
    of the entries the round sends on [commitChan], in the order of the
    sends (which happen after the mutex is released). *)
Definition commitLoop_round : M Cmd (list (CommitEntry Cmd)) :=
  lock;;
  cm ← get;
  let savedTerm := currentTerm cm in
  let savedLastApplied := lastApplied cm in
  entries ←
    (if commitIndex cm >? lastApplied cm then
       entries ← lift (slice (log cm) (int_add (lastApplied cm) 1)
                         (int_add (commitIndex cm) 1));
       modify (set_lastApplied (commitIndex cm));;
       mret entries
     else mret []);
  unlock;;
  mret (imap (λ i entry,
                mkCommitEntry (Command entry)
                  (int_add (int_add savedLastApplied (Z.of_nat i)) 1)
                  savedTerm) entries).

(** [gob]'s decoder, on what the encoder wrote and into a destination that
    holds the zero value of its type: it yields the value that was encoded,
    and fails on data of another type.  (Into a slice that already holds
    elements the decoder reuses them; that is outside of this model.) *)
Definition gobDecodeInt (data : Stored Cmd) : option Z :=
  match data with
  | GobInt z => Some z
  | GobLog _ => None
  end.
Definition gobDecodeLog (data : Stored Cmd) : option (list (LogEntry Cmd)) :=
  match data with
  | GobLog l => Some l
  | GobInt _ => None
  end.

(** raft.go 443-468, as [NewConsensusModule] calls it (raft.go 109-111, the
    only call): on the record as it was just constructed, whose
    [currentTerm], [votedFor] and [log] hold their zero values when the
    decoder writes into them.  (The function reads [cm.storage]; its
    parameter is not used.) *)
Definition restoreFromStorage (cm : ConsensusModule Cmd)
    : StartUp (ConsensusModule Cmd) :=
  match storageGet "currentTerm" (storage cm) with
  | None => Fatal (NotFound "currentTerm not found in storage")
  | Some termData =>
      match gobDecodeInt termData with
      | None => Fatal (DecodeFailed "currentTerm")
      | Some term =>
          let cm := set_currentTerm term cm in
          match storageGet "votedFor" (storage cm) with
          | None => Fatal (NotFound "votedFor not found in storage")
          | Some voteData =>
              match gobDecodeInt voteData with
              | None => Fatal (DecodeFailed "votedFor")
              | Some voted =>
                  let cm := set_votedFor voted cm in
                  match storageGet "log" (storage cm) with
                  | None => Fatal (NotFound "log not found in storage")
                  | Some logData =>
                      match gobDecodeLog logData with
                      | None => Fatal (DecodeFailed "log")
                      | Some l => Restored (set_log l cm)
                      end
                  end
              end
          end
      end
  end.

End MoreHandlers.

(** * Vocabulary of the properties *)

(** ** Traces *)




(** The sends of a trace in program order: the channel, the kind of the
    send, and whether the mutex is held when it is made ([held] says
    whether it is held where the trace starts). *)
Fixpoint sendsOf (held : bool) (tr : list Event) : list (Chan * SendKind * bool) :=
  match tr with
  | [] => []
  | EvLock :: tr' => sendsOf true tr'
  | EvUnlock :: tr' => sendsOf false tr'
  | EvSend k c :: tr' => (c, k, held) :: sendsOf held tr'
  | EvGo _ :: tr' => sendsOf held tr'
  end.

(** The trace holds a send on channel [c]. *)
Definition sendsOn (c : Chan) (tr : list Event) : bool :=
  existsb (λ s, bool_decide (s.1.1 = c)) (sendsOf false tr).

Section Vocabulary.

Context {Cmd : Type}.
Implicit Types (st cm : ConsensusModule Cmd).

(** The new-commit-ready channel is made by [NewConsensusModule] and closed
    by [Stop] (raft.go 159), and a send on a closed channel panics.  The
    record does not hold the channel: [closed] says whether [Stop] has
    closed it, and [withChannel closed m] is the run of [m] on that
    channel.  Up to its first send on the channel a run does not depend on
    it, so the run on the closed channel panics exactly when the run on the
    open one reaches such a send.  (The trigger-append channel is never
    closed.) *)
Definition withChannel {A : Type} (closed : bool) (m : M Cmd A) : M Cmd A :=
  λ now cm,
    match m now cm with
    | Ok (a, cm', tr) =>
        if closed && sendsOn newCommitReadyChan tr then Panic
        else Ok (a, cm', tr)
    | Panic => Panic
    | OutOfFuel => OutOfFuel
    end.

(** The replica after the term catch-up step of a handler (raft.go 499-502
    and 544-547): [becomeFollower(term)] when [term > currentTerm]. *)
Definition afterTermCatchUp (term : Z) (now : Time) st : ConsensusModule Cmd :=
  if term >? currentTerm st
  then set_electionResetEvent now
         (set_votedFor (-1) (set_currentTerm term (set_state Follower st)))
  else st.

(** Index and term of the last entry of a log, (-1, -1) on the empty log. *)
Definition lastIndexTerm (l : list (LogEntry Cmd)) : Z * Z :=
  match last l with
  | Some e => (len l - 1, Term e)
  | None => (-1, -1)
  end.

(** The storage holds the three persistent fields as they are in memory. *)
Definition persisted st : Prop :=
  storageGet "currentTerm" (storage st) = Some (GobInt (currentTerm st))
  ∧ storageGet "votedFor" (storage st) = Some (GobInt (votedFor st))
  ∧ storageGet "log" (storage st) = Some (GobLog (log st)).

(** ** Sequences of operations on one replica *)

Inductive Op : Type :=
| OpRequestVote (args : RequestVoteArgs) (reply : RequestVoteReply)
| OpAppendEntries (args : AppendEntriesArgs Cmd) (reply : AppendEntriesReply)
| OpStartElection
| OpBecomeFollower (term : Z).

Definition finalState {A : Type}
    (o : Outcome (A * ConsensusModule Cmd * list Event))
    : Outcome (ConsensusModule Cmd) :=
  match o with
  | Ok (_, st', _) => Ok st'
  | Panic => Panic
  | OutOfFuel => OutOfFuel
  end.

Definition runOp (op : Op) (now : Time) st : Outcome (ConsensusModule Cmd) :=
  match op with
  | OpRequestVote args reply => finalState (RequestVote args reply now st)
  | OpAppendEntries args reply => finalState (AppendEntries args reply now st)
  | OpStartElection => finalState (startElection now st)
  | OpBecomeFollower term => finalState (becomeFollower term now st)
  end.

(** Each operation runs at its own clock reading. *)
Fixpoint runOps (ops : list (Time * Op)) st : Outcome (ConsensusModule Cmd) :=
  match ops with
  | [] => Ok st
  | (now, op) :: ops' =>
      match runOp op now st with
      | Ok st' => runOps ops' st'
      | Panic => Panic
      | OutOfFuel => OutOfFuel
      end
  end.

(** ** The embedded entry points that take the mutex *)




(** The trace holds a channel send. *)
Definition hasSend (tr : list Event) : bool :=
  existsb (λ e, match e with EvSend _ _ => true | _ => false end) tr.

(** ** AppendEntries *)

(** The consistency check of AppendEntries on [prevLogIndex] and
    [prevLogTerm]. *)
Definition logConsistent (l : list (LogEntry Cmd)) (prevLogIndex prevLogTerm : Z)
    : Prop :=
  prevLogIndex = -1
  ∨ (prevLogIndex < len l
     ∧ ∃ e, index l prevLogIndex = Ok e ∧ Term e = prevLogTerm).

(** Reconciliation of the local entries after [prevLogIndex] with the
    incoming ones, as the spec words it: advance while the terms match;
    where they differ or the local log ends, truncate and append the
    remaining incoming entries; when the incoming entries run out, nothing
    is changed. *)
Fixpoint reconcile_spec (local incoming : list (LogEntry Cmd)) {struct incoming}
    : list (LogEntry Cmd) :=
  match incoming with
  | [] => local
  | b :: incoming' =>
      match local with
      | [] => incoming
      | a :: local' =>
          if Term a =? Term b
          then a :: reconcile_spec local' incoming'
          else incoming
      end
  end.

(** The number of leading positions at which the local and the incoming
    entries carry the same term. *)
Fixpoint matchLen (local incoming : list (LogEntry Cmd)) : nat :=
  match local, incoming with
  | a :: local', b :: incoming' =>
      if Term a =? Term b then S (matchLen local' incoming') else O
  | _, _ => O
  end.

(** ** Commit advancement *)

(** The number of replicas, the leader included, whose [matchIndex] has
    reached [i]. *)
Definition replicaCount (peers : list Z) (matchIdx : gmap Z Z) (i : Z) : Z :=
  1 + len (filter (λ peerId, i <= mapGet matchIdx peerId) peers).

(** Index [i] holds an entry of the current term that a majority of the
    replicas has. *)
Definition committable st (i : Z) : Prop :=
  (∃ e, index (log st) i = Ok e ∧ Term e = currentTerm st)
  ∧ 2 * replicaCount (peerIds st) (matchIndex st) i > len (peerIds st) + 1.

End Vocabulary.

(** * Example replicas and requests (commands are strings) *)

Module Examples.

Definition reply0 : RequestVoteReply := mkRequestVoteReply 0 false.
Definition aeReply0 : AppendEntriesReply := mkAppendEntriesReply 0 false.

(** Replica 0 of a cluster of five, as constructed, with its storage
    holding the initial persistent state. *)
Definition replica0 : ConsensusModule string :=
  set_storage {[ "currentTerm" := GobInt 0; "votedFor" := GobInt (-1);
                 "log" := GobLog [] ]}
    (NewConsensusModule 0 [1; 2; 3; 4] ∅).

(** Replica 0 after its election timer fired: Candidate of term 1. *)
Definition candidate0 : ConsensusModule string :=
  set_votedFor 0
    (set_electionResetEvent 10 (set_currentTerm 1 (set_state Candidate replica0))).

(** Replica 0 of a cluster of three, Candidate of term 2, holding two
    entries of term 1. *)
Definition candidate2 : ConsensusModule string :=
  mkCM 0 [1; 2] 2 0 [mkLogEntry "a" 1; mkLogEntry "b" 1] (-1) (-1) Candidate 10
       ∅ ∅ ∅.

(** The same replica after it won the election: Leader of term 2. *)
Definition leader0 : ConsensusModule string :=
  mkCM 0 [1; 2] 2 0 [mkLogEntry "a" 1; mkLogEntry "b" 1] (-1) (-1) Leader 10
       {[ 1 := 2; 2 := 2 ]} {[ 1 := -1; 2 := -1 ]} ∅.

(** The leader after a client submitted "c". *)
Definition leader1 : ConsensusModule string :=
  mkCM 0 [1; 2] 2 0 [mkLogEntry "a" 1; mkLogEntry "b" 1; mkLogEntry "c" 2]
       (-1) (-1) Leader 10
       {[ 1 := 2; 2 := 2 ]} {[ 1 := -1; 2 := -1 ]}
       {[ "currentTerm" := GobInt 2; "votedFor" := GobInt 0;
          "log" := GobLog [mkLogEntry "a" 1; mkLogEntry "b" 1; mkLogEntry "c" 2] ]}.

(** The two followers of that leader, holding its log. *)
Definition peer1 : ConsensusModule string :=
  mkCM 1 [0; 2] 2 0 [mkLogEntry "a" 1; mkLogEntry "b" 1] (-1) (-1) Follower 10
       ∅ ∅ ∅.
Definition peer2 : ConsensusModule string :=
  mkCM 2 [0; 1] 2 0 [mkLogEntry "a" 1; mkLogEntry "b" 1] (-1) (-1) Follower 10
       ∅ ∅ ∅.

Definition voteFor2 : RequestVoteArgs := mkRequestVoteArgs 1 2 (-1) (-1).
Definition heartbeatOf1 : AppendEntriesArgs string :=
  mkAppendEntriesArgs 1 1 (-1) (-1) [] (-1).
Definition appendX : AppendEntriesArgs string :=
  mkAppendEntriesArgs 1 1 (-1) (-1) [mkLogEntry "x" 1] 0.

(** Replica 0 after it granted its vote for term 1 to candidate 2. *)
Definition voter0 : ConsensusModule string :=
  set_electionResetEvent 15
    (set_votedFor 2 (set_electionResetEvent 15
       (set_votedFor (-1) (set_currentTerm 1 (set_state Follower replica0))))).

Definition failed2 : AppendEntriesReply := mkAppendEntriesReply 2 false.

(** A follower of term 1 whose second entry is not the leader's. *)
Definition diverged : ConsensusModule string :=
  mkCM 2 [0; 1] 1 1 [mkLogEntry "x" 1; mkLogEntry "bogus" 1] (-1) (-1)
       Follower 10 ∅ ∅ ∅.

Definition appendZ : AppendEntriesArgs string :=
  mkAppendEntriesArgs 2 1 0 1 [mkLogEntry "z" 2] 0.

(** [diverged] after the leader of term 2 replaced its second entry. *)
Definition reconciled : ConsensusModule string :=
  mkCM 2 [0; 1] 2 (-1) [mkLogEntry "x" 1; mkLogEntry "z" 2] 0 (-1)
       Follower 30 ∅ ∅ ∅.

End Examples.

(** ** Vocabulary and examples of the further properties *)

Section MoreVocabulary.

Context {Cmd : Type}.

(** When a round of the timer's loop starts an election. *)
Definition timerFires (timeoutDuration termStarted : Z) (now : Time)
    (st : ConsensusModule Cmd) : Prop :=
  (state st = Candidate ∨ state st = Follower)
  ∧ termStarted = currentTerm st
  ∧ timeoutDuration <= since now (electionResetEvent st).

End MoreVocabulary.

Module MoreExamples.

Import Examples.

(** Replica 0 after Stop. *)
Definition stopped : ConsensusModule string := set_state Dead replica0.

(** Candidate 3 asks for the vote of term 1. *)
Definition voteFor3 : RequestVoteArgs := mkRequestVoteArgs 1 3 (-1) (-1).

(** Peer 1 of the leader [leader1]: a follower of term 2 that holds the
    first two entries of the leader's log. *)
Definition follower1 : ConsensusModule string :=
  mkCM 1 [0; 2] 2 0 [mkLogEntry "a" 1; mkLogEntry "b" 1] (-1) (-1) Follower 10
       ∅ ∅ ∅.

(** The leader [leader1] with its first two entries committed. *)
Definition committed1 : ConsensusModule string := set_commitIndex 1 leader1.

(** A vote of term 2, granted. *)
Definition granted2 : RequestVoteReply := mkRequestVoteReply 2 true.

(** The leader of term 2 after it went on to term 3. *)
Definition later3 : ConsensusModule string := set_currentTerm 3 leader0.

End MoreExamples.

(** * Properties *)

(** ** Arithmetic of [int] *)

Lemma wrap_id (z : Z) : is_int z → wrap z = z.
Proof.
  unfold is_int, wrap, int_min, int_max. intros H.
  rewrite Z.mod_small by lia. lia.
Qed.

Lemma wrap_is_int (z : Z) : is_int (wrap z).
Proof.
  unfold is_int, wrap, int_min, int_max.
  pose proof (Z.mod_pos_bound (z + 2 ^ 63) (2 ^ 64) ltac:(lia)). lia.
Qed.

Lemma len_nonneg {A : Type} (l : list A) : 0 <= len l.
Proof. unfold len. lia. Qed.

Lemma len_app {A : Type} (l k : list A) : len (l ++ k) = len l + len k.
Proof. unfold len. rewrite length_app. lia. Qed.

Lemma index_Ok {A : Type} (l : list A) (i : Z) (x : A) :
  index l i = Ok x ↔ 0 <= i ∧ l !! Z.to_nat i = Some x.
Proof.
  unfold index. destruct (Z.ltb_spec i 0).
  - split; [done | lia].
  - destruct (l !! Z.to_nat i) eqn:E; split; intros; try done.
    + split; [lia | congruence].
    + destruct H0 as [_ H0]. congruence.
    + destruct H0 as [_ H0]. congruence.
Qed.

Lemma index_in_range {A : Type} (l : list A) (i : Z) :
  0 <= i < len l → ∃ x, index l i = Ok x ∧ l !! Z.to_nat i = Some x.
Proof.
  intros H. unfold len in H.
  destruct (lookup_lt_is_Some_2 l (Z.to_nat i) ltac:(lia)) as [x Hx].
  exists x. split; [|done]. apply index_Ok. split; [lia | done].
Qed.

Lemma index_never_OutOfFuel {A : Type} (l : list A) (i : Z) :
  index l i ≠ OutOfFuel.
Proof. unfold index. repeat case_match; done. Qed.

(** Unfolds the monad down to matches on outcomes. *)
Ltac unfold_M :=
  unfold lock, unlock, send, go, deferUnlock in *;
  unfold mbind, mret, M_bind, M_ret, bind, ret, get, modify, emit, timeNow,
    lift in *;
  cbv beta iota in *.

(** Destructs every match of a run down to its leaves. *)
Ltac break_run :=
  repeat (case_match; simplify_eq; simpl in *; try done).

(** Turns the boolean tests of the code into propositions. *)
Ltac bool_to_prop :=
  repeat match goal with
    | H : (_ && _) = true |- _ => apply andb_true_iff in H; destruct H
    | H : (_ && _) = false |- _ => apply andb_false_iff in H
    | H : (_ || _) = true |- _ => apply orb_true_iff in H
    | H : (_ || _) = false |- _ => apply orb_false_iff in H; destruct H
    | H : negb _ = true |- _ => apply negb_true_iff in H
    | H : negb _ = false |- _ => apply negb_false_iff in H
    | H : (_ =? _) = true |- _ => apply Z.eqb_eq in H
    | H : (_ =? _) = false |- _ => apply Z.eqb_neq in H
    | H : (_ >? _) = true |- _ => apply Z.gtb_gt in H
    | H : (_ >? _) = false |- _ => rewrite Z.gtb_ltb in H; apply Z.ltb_ge in H
    | H : (_ <? _) = true |- _ => apply Z.ltb_lt in H
    | H : (_ <? _) = false |- _ => apply Z.ltb_ge in H
    | H : (_ >=? _) = true |- _ => apply Z.geb_ge in H
    | H : (_ >=? _) = false |- _ => rewrite Z.geb_leb in H; apply Z.leb_gt in H
    | H : bool_decide _ = true |- _ => apply bool_decide_eq_true_1 in H
    | H : bool_decide _ = false |- _ => apply bool_decide_eq_false_1 in H
    end.

Section Properties.

Context {Cmd : Type}.
Implicit Types (st cm : ConsensusModule Cmd) (now : Time).

(** ** Submit *)

(** C9. [Submit] returns true exactly when the replica is Leader; then the
    log has grown by exactly the entry (command, currentTerm); when it
    returns false the whole record is as it was. *)
Theorem Submit_true_iff_Leader (command : Cmd) now st :
  ∃ b st' tr,
    Submit command now st = Ok (b, st', tr)
    ∧ (b = true ↔ state st = Leader)
    ∧ (b = true → log st' = log st ++ [mkLogEntry command (currentTerm st)])
    ∧ (b = false → st' = st).
Proof.
  unfold Submit, persistToStorage. unfold_M.
  case_decide as HL; simpl.
  - eexists _, _, _. split; [reflexivity |]. repeat split; auto; discriminate.
  - eexists _, _, _. split; [reflexivity |]. repeat split; auto; discriminate.
Qed.

(** ** AppendEntries with a stale term *)

(** C10. An AppendEntries whose term is below [currentTerm] is answered
    with (currentTerm, false); the record, the election timer included, is
    left as it was (the only events are taking and releasing the mutex). *)
Theorem AppendEntries_stale_term (args : AppendEntriesArgs Cmd)
    (reply : AppendEntriesReply) now st :
  state st ≠ Dead →
  aeTerm args < currentTerm st →
  AppendEntries args reply now st
  = Ok (mkAppendEntriesReply (currentTerm st) false, st, [EvLock; EvUnlock]).
Proof.
  intros HD Hlt. unfold AppendEntries. unfold_M. simpl.
  case_decide; [contradiction |].
  destruct (Z.gtb_spec (aeTerm args) (currentTerm st)) as [? | _]; [lia |].
  simpl.
  destruct (Z.eqb_spec (aeTerm args) (currentTerm st)) as [? | _]; [lia |].
  reflexivity.
Qed.

(** ** The leader's handling of an unsuccessful AppendEntries reply *)

(** C3 (as amended). On an unsuccessful reply with [state = Leader] and
    the reply's term equal to the term of the request, [nextIndex[peer]]
    becomes [ni - 1] (in [int] arithmetic), where [ni] is the value of
    [nextIndex[peer]] read when the request was built; nothing else
    changes and there is no clamp at 0.  When [nextIndex[peer]] is still
    [ni] and [ni >= 1], that is max(old nextIndex[peer] - 1, 0). *)
Theorem sendAppendEntries_reply_failure (peerId ni : Z)
    (entries : list (LogEntry Cmd)) (savedCurrentTerm : Z)
    (reply : AppendEntriesReply) now st :
  state st = Leader →
  aeReplyTerm reply = savedCurrentTerm →
  Success reply = false →
  ∃ st',
    sendAppendEntries_reply peerId ni entries savedCurrentTerm reply now st
    = Ok (tt, st', [EvLock; EvUnlock])
    ∧ st' = set_nextIndex (<[peerId := int_sub ni 1]> (nextIndex st)) st
    ∧ mapGet (nextIndex st') peerId = int_sub ni 1
    ∧ (int_min < ni → is_int ni → mapGet (nextIndex st') peerId = ni - 1)
    ∧ (mapGet (nextIndex st) peerId = ni → 1 <= ni → is_int ni →
       mapGet (nextIndex st') peerId = Z.max (mapGet (nextIndex st) peerId - 1) 0).
Proof.
  intros HL HT HS. eexists. split; [| split; [reflexivity |]].
  - unfold sendAppendEntries_reply. unfold_M. simpl.
    destruct (Z.gtb_spec (aeReplyTerm reply) savedCurrentTerm); [lia |].
    rewrite bool_decide_eq_true_2 by done.
    destruct (Z.eqb_spec savedCurrentTerm (aeReplyTerm reply)); [| congruence].
    rewrite HS. reflexivity.
  - assert (Hget : mapGet (<[peerId := int_sub ni 1]> (nextIndex st)) peerId
                   = int_sub ni 1).
    { unfold mapGet. by rewrite lookup_insert_eq. }
    simpl. rewrite Hget. unfold int_sub, is_int, int_min, int_max.
    split; [done |]. split.
    + intros ? ?. apply wrap_id. unfold is_int, int_min, int_max. lia.
    + intros -> ? ?. rewrite wrap_id by (unfold is_int, int_min, int_max; lia). lia.
Qed.

(** ** RequestVote *)

Lemma becomeFollower_run (term : Z) now st :
  becomeFollower term now st
  = Ok (tt, set_electionResetEvent now
              (set_votedFor (-1) (set_currentTerm term (set_state Follower st))),
        [EvGo runElectionTimerGo]).
Proof. reflexivity. Qed.

Lemma lastLogIndexAndTerm_run now st :
  slice_ok (log st) →
  lastLogIndexAndTerm now st = Ok (lastIndexTerm (log st), st, []).
Proof.
  unfold slice_ok, lastLogIndexAndTerm, lastIndexTerm. intros Hok. unfold_M. simpl.
  pose proof (len_nonneg (log st)) as Hn.
  destruct (Z.gtb_spec (len (log st)) 0) as [Hpos | Hz].
  - unfold int_sub. rewrite wrap_id by (unfold is_int, int_min, int_max in *; lia).
    rewrite last_lookup.
    destruct (index_in_range (log st) (len (log st) - 1) ltac:(lia)) as (e & He & Hl).
    rewrite He.
    replace (Init.Nat.pred (length (log st))) with (Z.to_nat (len (log st) - 1))
      by (unfold len; lia).
    rewrite Hl. reflexivity.
  - assert (log st = []) as ->; [| reflexivity].
    destruct (log st); [done |]. unfold len in Hz. simpl in Hz. lia.
Qed.

Lemma grant_condition_iff (term voted li lt : Z) (args : RequestVoteArgs) :
  (term =? rvTerm args)
  && ((voted =? -1) || (voted =? CandidateId args))
  && ((LastLogTerm args >? lt)
      || ((LastLogTerm args =? lt) && (LastLogIndex args >=? li))) = true
  ↔ term = rvTerm args
    ∧ (voted = -1 ∨ voted = CandidateId args)
    ∧ (LastLogTerm args > lt
       ∨ (LastLogTerm args = lt ∧ LastLogIndex args >= li)).
Proof.
  rewrite !andb_true_iff, !orb_true_iff, !andb_true_iff.
  rewrite !Z.eqb_eq, Z.gtb_gt, Z.geb_ge. tauto.
Qed.

(** C6. On a replica that is not Dead, after the term catch-up step the
    vote is granted exactly when [currentTerm] equals the request's term,
    [votedFor] is -1 or the candidate, and the candidate's log is at least
    as up-to-date as ours; on grant [votedFor] becomes the candidate; the
    reply always carries the replica's [currentTerm]. *)
Theorem RequestVote_grant_iff (args : RequestVoteArgs) (reply : RequestVoteReply)
    now st :
  state st ≠ Dead →
  slice_ok (log st) →
  let st1 := afterTermCatchUp (rvTerm args) now st in
  let ourLastLogIndex := (lastIndexTerm (log st)).1 in
  let ourLastLogTerm := (lastIndexTerm (log st)).2 in
  ∃ r st' tr,
    RequestVote args reply now st = Ok (r, st', tr)
    ∧ (VotedGranted r = true ↔
         currentTerm st1 = rvTerm args
         ∧ (votedFor st1 = -1 ∨ votedFor st1 = CandidateId args)
         ∧ (LastLogTerm args > ourLastLogTerm
            ∨ (LastLogTerm args = ourLastLogTerm
               ∧ LastLogIndex args >= ourLastLogIndex)))
    ∧ (VotedGranted r = true → votedFor st' = CandidateId args)
    ∧ (VotedGranted r = false → votedFor st' = votedFor st1)
    ∧ rvReplyTerm r = currentTerm st'
    ∧ currentTerm st' = currentTerm st1.
Proof.
  intros HD Hok st1 ourLastLogIndex ourLastLogTerm.
  unfold RequestVote.
  pose proof (lastLogIndexAndTerm_run now st Hok) as Hlast.
  destruct (lastIndexTerm (log st)) as [li lt] eqn:Hlit.
  subst ourLastLogIndex ourLastLogTerm. simpl.
  unfold becomeFollower. unfold_M. simpl.
  case_decide; [contradiction |].
  unfold mbind, M_bind, bind in Hlast. rewrite Hlast. simpl.
  pose proof (grant_condition_iff (currentTerm st1) (votedFor st1) li lt args) as Hiff.
  subst st1. unfold afterTermCatchUp in *.
  destruct (rvTerm args >? currentTerm st) eqn:Hgt; simpl in *;
    match goal with
    | |- context [if ?c then _ else _] => destruct c eqn:Hc
    end; simpl;
    (eexists _, _, _; split; [reflexivity |]; simpl);
    rewrite <- Hiff;
    repeat split; auto; discriminate.
Qed.

(** ** Persistence *)

Lemma persistToStorage_persisted now st :
  ∃ st', persistToStorage now st = Ok (tt, st', [])
         ∧ persisted st'
         ∧ set_storage (storage st) st' = st.
Proof.
  eexists. split; [reflexivity |]. split.
  - unfold persisted, storageGet, storageSet. simpl. by simplify_map_eq.
  - by destruct st.
Qed.

(** Neither RPC handler writes the storage, on any path. *)
Lemma RequestVote_storage (args : RequestVoteArgs) (reply : RequestVoteReply)
    now st r st' tr :
  RequestVote args reply now st = Ok (r, st', tr) → storage st' = storage st.
Proof.
  unfold RequestVote, lastLogIndexAndTerm, becomeFollower. unfold_M.
  intros H. break_run.
Qed.

Lemma AppendEntries_storage (args : AppendEntriesArgs Cmd)
    (reply : AppendEntriesReply) now st r st' tr :
  AppendEntries args reply now st = Ok (r, st', tr) → storage st' = storage st.
Proof.
  unfold AppendEntries, becomeFollower. unfold_M.
  intros H. break_run.
Qed.

(** ** Starting an election *)

Lemma forRange_go {A : Type} (l : list A) (t : A → Goroutine) now st :
  forRange l (λ x, go (t x)) now st = Ok (tt, st, map (λ x, EvGo (t x)) l).
Proof.
  induction l as [| x l IH]; [reflexivity |].
  simpl. unfold_M. unfold mbind, M_bind, bind in IH. rewrite IH. reflexivity.
Qed.

Lemma startElection_run now st :
  startElection now st
  = Ok (tt,
        set_votedFor (cm_id st)
          (set_electionResetEvent now
             (set_currentTerm (int_add (currentTerm st) 1)
                (set_state Candidate st))),
        map (λ peerId,
               EvGo (requestVoteGo peerId (int_add (currentTerm st) 1)))
            (peerIds st)
        ++ [EvGo runElectionTimerGo]).
Proof.
  unfold startElection. unfold mbind, mret, M_bind, M_ret, bind, get, modify, timeNow.
  simpl. rewrite forRange_go. reflexivity.
Qed.

(** ** Log reconciliation in AppendEntries *)

Lemma matchLen_nil_r (local : list (LogEntry Cmd)) : matchLen local [] = O.
Proof. by destruct local. Qed.

Lemma matchLen_le (local incoming : list (LogEntry Cmd)) :
  (matchLen local incoming <= length local)%nat
  ∧ (matchLen local incoming <= length incoming)%nat.
Proof.
  revert incoming. induction local as [| a local IH]; intros [| b incoming];
    simpl; try lia.
  destruct (Term a =? Term b); simpl; [| lia].
  specialize (IH incoming). lia.
Qed.

(** What the spec's reconciliation keeps and what it replaces. *)
Lemma reconcile_spec_matchLen (local incoming : list (LogEntry Cmd)) :
  reconcile_spec local incoming
  = if (matchLen local incoming <? length incoming)%nat
    then take (matchLen local incoming) local
         ++ drop (matchLen local incoming) incoming
    else local.
Proof.
  revert local. induction incoming as [| b incoming IH]; intros local.
  - rewrite matchLen_nil_r. reflexivity.
  - destruct local as [| a local]; [reflexivity |]. simpl.
    destruct (Term a =? Term b); [| reflexivity].
    rewrite IH. change (S ?n <? S ?m)%nat with (n <? m)%nat.
    destruct (matchLen local incoming <? length incoming)%nat; reflexivity.
Qed.

Lemma reconcile_spec_length (local incoming : list (LogEntry Cmd)) :
  (length (reconcile_spec local incoming) <= length local + length incoming)%nat.
Proof.
  revert local. induction incoming as [| b incoming IH]; intros local; simpl.
  - lia.
  - destruct local as [| a local]; simpl; [lia |].
    destruct (Term a =? Term b); simpl; [| lia].
    specialize (IH local). lia.
Qed.

(** Reconciling a second time with the same incoming entries changes
    nothing. *)
Lemma reconcile_spec_idem (local incoming : list (LogEntry Cmd)) :
  reconcile_spec (reconcile_spec local incoming) incoming
  = reconcile_spec local incoming.
Proof.
  revert local. induction incoming as [| b incoming IH]; intros local; simpl.
  - reflexivity.
  - assert (Hself : ∀ l : list (LogEntry Cmd), reconcile_spec l l = l).
    { induction l as [| x l IHl]; [reflexivity |]. simpl.
      rewrite Z.eqb_refl. by rewrite IHl. }
    destruct local as [| a local]; simpl.
    + rewrite Z.eqb_refl. by rewrite Hself.
    + destruct (Term a =? Term b) eqn:E; simpl.
      * rewrite E. by rewrite IH.
      * rewrite Z.eqb_refl. by rewrite Hself.
Qed.

Lemma reconcileLoop_S (fuel : nat) (l entries : list (LogEntry Cmd))
    (logInsertIndex newEntriesIndex : Z) :
  reconcileLoop (S fuel) l entries logInsertIndex newEntriesIndex
  = if (logInsertIndex >=? len l) || (newEntriesIndex >=? len entries)
    then Ok (logInsertIndex, newEntriesIndex)
    else
      match index l logInsertIndex, index entries newEntriesIndex with
      | Ok a, Ok b =>
          if negb (Term a =? Term b)
          then Ok (logInsertIndex, newEntriesIndex)
          else reconcileLoop fuel l entries
                 (int_add logInsertIndex 1) (int_add newEntriesIndex 1)
      | _, _ => Panic
      end.
Proof. reflexivity. Qed.

(** The loop of AppendEntries stops after the leading entries whose terms
    agree. *)
Lemma reconcileLoop_run (fuel : nat) (l entries : list (LogEntry Cmd))
    (logInsertIndex newEntriesIndex : Z) :
  slice_ok l → slice_ok entries →
  0 <= logInsertIndex → 0 <= newEntriesIndex →
  (length entries - Z.to_nat newEntriesIndex < fuel)%nat →
  let k := Z.of_nat (matchLen (drop (Z.to_nat logInsertIndex) l)
                       (drop (Z.to_nat newEntriesIndex) entries)) in
  reconcileLoop fuel l entries logInsertIndex newEntriesIndex
  = Ok (logInsertIndex + k, newEntriesIndex + k).
Proof.
  unfold slice_ok. intros Hl He.
  revert logInsertIndex newEntriesIndex.
  induction fuel as [| fuel IH]; intros lii nei Hlii Hnei Hfuel; [lia |].
  rewrite reconcileLoop_S.
  destruct (Z.geb_spec lii (len l)) as [Hge | Hlt]; simpl.
  { rewrite drop_ge by (unfold len in Hge; lia). simpl.
    f_equal. f_equal; lia. }
  destruct (Z.geb_spec nei (len entries)) as [Hge' | Hlt']; simpl.
  { rewrite (drop_ge entries) by (unfold len in Hge'; lia).
    rewrite matchLen_nil_r. f_equal. f_equal; lia. }
  destruct (index_in_range l lii ltac:(lia)) as (a & Ha & Hla).
  destruct (index_in_range entries nei ltac:(lia)) as (b & Hb & Hlb).
  rewrite Ha, Hb.
  rewrite (drop_S _ _ _ Hla), (drop_S _ _ _ Hlb). simpl.
  destruct (Term a =? Term b); simpl.
  - unfold int_add.
    rewrite !wrap_id by (unfold is_int, int_min, int_max in *; lia).
    rewrite IH by (unfold len in *; lia).
    replace (Z.to_nat (lii + 1)) with (S (Z.to_nat lii)) by lia.
    replace (Z.to_nat (nei + 1)) with (S (Z.to_nat nei)) by lia.
    f_equal. f_equal; lia.
  - f_equal. f_equal; lia.
Qed.

Lemma sliceTo_run {A : Type} (l : list A) (i : Z) :
  0 <= i <= len l → sliceTo l i = Ok (take (Z.to_nat i) l).
Proof.
  intros H. unfold sliceTo.
  destruct (Z.ltb_spec i 0); [lia |]. destruct (Z.ltb_spec (len l) i); [lia |].
  reflexivity.
Qed.

Lemma sliceFrom_run {A : Type} (l : list A) (i : Z) :
  0 <= i <= len l → sliceFrom l i = Ok (drop (Z.to_nat i) l).
Proof.
  intros H. unfold sliceFrom.
  destruct (Z.ltb_spec i 0); [lia |]. destruct (Z.ltb_spec (len l) i); [lia |].
  reflexivity.
Qed.

Lemma logConsistent_range (l : list (LogEntry Cmd)) (p t : Z) :
  logConsistent l p t → -1 <= p < len l.
Proof.
  intros [-> | (Hlt & e & He & _)].
  - pose proof (len_nonneg l). lia.
  - apply index_Ok in He. lia.
Qed.

(** The log the code leaves, in terms of the spec's reconciliation. *)
Lemma reconcile_take_drop (l entries : list (LogEntry Cmd)) (n : nat) :
  let k := matchLen (drop n l) entries in
  take n l ++ reconcile_spec (drop n l) entries
  = if (k <? length entries)%nat then take (n + k) l ++ drop k entries else l.
Proof.
  simpl. rewrite reconcile_spec_matchLen.
  destruct (_ <? _)%nat.
  - by rewrite app_assoc, take_take_drop.
  - apply take_drop.
Qed.

(** An AppendEntries that passes the consistency check, run to its end. *)
Lemma AppendEntries_accept_run (args : AppendEntriesArgs Cmd)
    (reply : AppendEntriesReply) now st :
  state st ≠ Dead →
  currentTerm st <= aeTerm args →
  slice_ok (log st) → slice_ok (Entries args) →
  logConsistent (log st) (PrevLogIndex args) (PrevLogTerm args) →
  ∃ st' tr,
    AppendEntries args reply now st
    = Ok (mkAppendEntriesReply (aeTerm args) true, st', tr)
    ∧ log st'
      = take (Z.to_nat (PrevLogIndex args + 1)) (log st)
        ++ reconcile_spec (drop (Z.to_nat (PrevLogIndex args + 1)) (log st))
             (Entries args)
    ∧ currentTerm st' = aeTerm args
    ∧ state st' = Follower.
Proof.
  intros HD Hterm Hl He Hcons.
  pose proof (logConsistent_range _ _ _ Hcons) as Hrange.
  pose proof (len_nonneg (Entries args)) as Hne.
  pose proof (matchLen_le (drop (Z.to_nat (PrevLogIndex args + 1)) (log st))
                (Entries args)) as [Hk1 Hk2].
  rewrite length_drop in Hk1.
  pose proof (reconcile_take_drop (log st) (Entries args)
                (Z.to_nat (PrevLogIndex args + 1))) as Hlog.
  simpl in Hlog. rewrite Hlog. clear Hlog.
  assert (Hloop :
    reconcileLoop (S (length (Entries args))) (log st) (Entries args)
      (int_add (PrevLogIndex args) 1) 0
    = Ok (PrevLogIndex args + 1
          + Z.of_nat (matchLen (drop (Z.to_nat (PrevLogIndex args + 1)) (log st))
                        (Entries args)),
          Z.of_nat (matchLen (drop (Z.to_nat (PrevLogIndex args + 1)) (log st))
                      (Entries args)))).
  { unfold int_add. unfold slice_ok in *.
    rewrite wrap_id by (unfold is_int, int_min, int_max in *; lia).
    rewrite reconcileLoop_run by (unfold slice_ok; lia). reflexivity. }
  set (k := matchLen (drop (Z.to_nat (PrevLogIndex args + 1)) (log st))
              (Entries args)) in *.
  assert (Hcheck1 : PrevLogIndex args ≠ -1 →
            (PrevLogIndex args <? len (log st)) = true
            ∧ ∃ e, index (log st) (PrevLogIndex args) = Ok e
                   ∧ (PrevLogTerm args =? Term e) = true).
  { intros Hne1. destruct Hcons as [? | (Hlt & e & Hidx & HT)]; [done |].
    split; [by apply Z.ltb_lt |]. exists e. split; [done |]. by apply Z.eqb_eq. }
  assert (Heqb : currentTerm st = aeTerm args →
            (aeTerm args =? currentTerm st) = true).
  { intros ->. apply Z.eqb_refl. }
  unfold AppendEntries, becomeFollower. unfold_M. simpl.
  case_decide; [contradiction |].
  destruct (Z.gtb_spec (aeTerm args) (currentTerm st)) as [Hgt | Hgt]; simpl;
    [rewrite Z.eqb_refl
    | assert (Hct : currentTerm st = aeTerm args) by lia;
      rewrite Heqb, ?Hct by done; case_decide]; simpl.
  all: destruct (Z.eqb_spec (PrevLogIndex args) (-1)) as [HP | HP]; simpl;
    [| destruct (Hcheck1 HP) as (Hltb & e & Hidx & HTb);
       rewrite Hltb, Hidx; simpl; rewrite HTb; simpl].
  all: rewrite Hloop; simpl.
  all: destruct (Z.ltb_spec (Z.of_nat k) (len (Entries args))) as [Hlt | Hge]; simpl;
    [rewrite sliceTo_run, sliceFrom_run by (unfold len in *; lia); simpl |].
  all: destruct (LeaderCommit args >? commitIndex st); simpl.
  all: try match goal with
           | Hct : currentTerm _ = aeTerm _ |- _ => rewrite !Hct
           end.
  all: eexists _, _; (split; [reflexivity |]); simpl; (split; [| by auto]).
  all: destruct (Nat.ltb_spec k (length (Entries args))); unfold len in *; try lia.
  all: rewrite ?Z2Nat.inj_add, ?Nat2Z.id by lia; done.
Qed.

(** A reply with [Success = true] comes from a request that is not stale
    and passed the consistency check. *)
Lemma AppendEntries_Success_inv (args : AppendEntriesArgs Cmd)
    (reply : AppendEntriesReply) now st r st' tr :
  AppendEntries args reply now st = Ok (r, st', tr) →
  state st ≠ Dead →
  Success r = true →
  currentTerm st <= aeTerm args
  ∧ logConsistent (log st) (PrevLogIndex args) (PrevLogTerm args).
Proof.
  unfold AppendEntries, becomeFollower, logConsistent. unfold_M.
  intros Hrun HD HS. break_run; bool_to_prop; split; try lia; eauto.
Qed.



(** The sends of AppendEntries: one, on the new-commit-ready channel and
    under the mutex, when the request is accepted and moves [commitIndex];
    none otherwise. *)
Lemma AppendEntries_sends (args : AppendEntriesArgs Cmd)
    (reply : AppendEntriesReply) now st r st' tr :
  state st ≠ Dead →
  AppendEntries args reply now st = Ok (r, st', tr) →
  sendsOf false tr
  = if Success r && (LeaderCommit args >? commitIndex st)
    then [(newCommitReadyChan, Blocking, true)] else [].
Proof.
  intros HD Hrun.
  unfold AppendEntries, becomeFollower in Hrun. unfold_M.
  break_run.
Qed.



(** C8. Once an AppendEntries request was accepted, the same request
    applied again right away is accepted again and leaves the log as the
    first application left it.  (The bound on the lengths holds of every
    pair of Go slices that can be appended.) *)
Theorem AppendEntries_idempotent (args : AppendEntriesArgs Cmd)
    (reply1 reply2 : AppendEntriesReply) (now1 now2 : Time) st r1 st1 tr1 :
  AppendEntries args reply1 now1 st = Ok (r1, st1, tr1) →
  state st ≠ Dead →
  Success r1 = true →
  len (log st) + len (Entries args) <= int_max →
  ∃ r2 st2 tr2,
    AppendEntries args reply2 now2 st1 = Ok (r2, st2, tr2)
    ∧ Success r2 = true
    ∧ log st2 = log st1.
Proof.
  intros Hrun HD HS Hlen.
  pose proof (len_nonneg (log st)) as Hn1.
  pose proof (len_nonneg (Entries args)) as Hn2.
  destruct (AppendEntries_Success_inv _ _ _ _ _ _ _ Hrun HD HS) as [Hterm Hcons].
  pose proof (logConsistent_range _ _ _ Hcons) as Hrange.
  destruct (AppendEntries_accept_run args reply1 now1 st HD Hterm
              ltac:(unfold slice_ok; lia) ltac:(unfold slice_ok; lia) Hcons)
    as (st' & tr' & Hrun' & Hlog & Hct & Hstate).
  rewrite Hrun in Hrun'. simplify_eq.
  set (n := Z.to_nat (PrevLogIndex args + 1)) in *.
  assert (Hn : (n <= length (log st))%nat) by (unfold len in *; lia).
  assert (Htake : take n (log st') = take n (log st)).
  { rewrite Hlog. apply take_app_length'. by rewrite length_take_le. }
  assert (Hdrop : drop n (log st')
                  = reconcile_spec (drop n (log st)) (Entries args)).
  { rewrite Hlog. apply drop_app_length'. by rewrite length_take_le. }
  pose proof (reconcile_spec_length (drop n (log st)) (Entries args)) as Hrl.
  rewrite length_drop in Hrl.
  assert (Hlen' : slice_ok (log st')).
  { unfold slice_ok, len in *. rewrite Hlog, length_app, length_take_le by done.
    lia. }
  assert (Hcons' : logConsistent (log st') (PrevLogIndex args) (PrevLogTerm args)).
  { destruct Hcons as [? | (Hlt & e & Hidx & HT)]; [by left | right].
    apply index_Ok in Hidx as [H0 Hlk].
    split.
    - unfold len in *. rewrite Hlog, length_app, length_take_le by done. lia.
    - exists e. split; [| done]. apply index_Ok. split; [done |].
      rewrite Hlog, lookup_app_l by (rewrite length_take_le by done; lia).
      rewrite lookup_take_lt by lia. done. }
  destruct (AppendEntries_accept_run args reply2 now2 st' ltac:(by rewrite Hstate)
              ltac:(lia) Hlen' ltac:(unfold slice_ok; lia) Hcons')
    as (st2 & tr2 & Hrun2 & Hlog2 & _).
  eexists _, _, _. split; [exact Hrun2 |]. split; [done |].
  rewrite Hlog2. fold n. rewrite Htake, Hdrop, reconcile_spec_idem. by rewrite Hlog.
Qed.

(** ** Commit advancement by the leader *)

(** The inner loop counts, as long as the count fits an [int]. *)
Lemma countMatches_run (peers : list Z) (matchIdx : gmap Z Z) (i c : Z) :
  int_min <= c → c + len peers <= int_max →
  countMatches peers matchIdx i c
  = c + len (filter (λ peerId, i <= mapGet matchIdx peerId) peers).
Proof.
  revert c. induction peers as [| p peers IH]; intros c Hc Hmax; simpl.
  - unfold len. simpl. lia.
  - unfold len in *. simpl in Hmax. rewrite filter_cons.
    destruct (Z.geb_spec (mapGet matchIdx p) i) as [Hge | Hlt].
    + rewrite decide_True by lia. unfold int_add.
      rewrite wrap_id by (unfold is_int; lia).
      rewrite IH by lia. simpl. lia.
    + rewrite decide_False by lia. rewrite IH by lia. reflexivity.
Qed.

Lemma commitScan_S (fuel : nat) (i : Z) :
  commitScan (Cmd := Cmd) (S fuel) i
  = (cm ← get;
     if i <? len (log cm) then
       e ← lift (index (log cm) i);
       (if Term e =? currentTerm cm then
          let matchCount := countMatches (peerIds cm) (matchIndex cm) i 1 in
          if int_mul matchCount 2 >? int_add (len (peerIds cm)) 1
          then modify (set_commitIndex i) else mret tt
        else mret tt);;
       commitScan fuel (int_add i 1)
     else mret tt).
Proof. reflexivity. Qed.

Lemma set_commitIndex_id st : set_commitIndex (commitIndex st) st = st.
Proof. by destruct st. Qed.

(** The test the scan makes at index [i] is [committable]. *)
Lemma commit_test_iff st (i : Z) (e : LogEntry Cmd) :
  2 * (len (peerIds st) + 1) <= int_max →
  index (log st) i = Ok e →
  (Term e =? currentTerm st)
  && (int_mul (countMatches (peerIds st) (matchIndex st) i 1) 2
      >? int_add (len (peerIds st)) 1) = true
  ↔ committable st i.
Proof.
  intros Hp He. unfold committable, replicaCount.
  pose proof (len_nonneg (peerIds st)) as Hn.
  pose proof (length_filter (λ peerId, i <= mapGet (matchIndex st) peerId)
                (peerIds st)) as Hf.
  rewrite countMatches_run by (unfold int_min, int_max in *; lia).
  unfold int_mul, int_add.
  rewrite !wrap_id by (unfold is_int, int_min, int_max, len in *; lia).
  rewrite andb_true_iff, Z.eqb_eq, Z.gtb_gt. split.
  - intros [HT Hm]. split; [eauto | lia].
  - intros [(e' & He' & HT) Hm]. rewrite He in He'. simplify_eq. split; [done | lia].
Qed.

(** The scan entered at [i] leaves [commitIndex] at the last committable
    index from [i] on, or as it was when there is none. *)
Lemma commitScan_run (fuel : nat) (i : Z) now st :
  0 <= i →
  slice_ok (log st) →
  2 * (len (peerIds st) + 1) <= int_max →
  (length (log st) - Z.to_nat i < fuel)%nat →
  ∃ c,
    commitScan fuel i now st = Ok (tt, set_commitIndex c st, [])
    ∧ (c = commitIndex st ∨ (i <= c < len (log st) ∧ committable st c))
    ∧ (∀ j, i <= j < len (log st) → committable st j → j <= c).
Proof.
  unfold slice_ok. revert i st.
  induction fuel as [| fuel IH]; intros i st Hi Hl Hp Hfuel; [lia |].
  rewrite commitScan_S. unfold_M. simpl.
  destruct (Z.ltb_spec i (len (log st))) as [Hlt | Hge].
  2:{ exists (commitIndex st). rewrite set_commitIndex_id.
      split; [done |]. split; [by left |]. intros; lia. }
  destruct (index_in_range (log st) i ltac:(lia)) as (e & He & _).
  rewrite He. simpl.
  pose proof (commit_test_iff st i e Hp He) as Htest.
  assert (Hnext : int_add i 1 = i + 1).
  { unfold int_add. apply wrap_id. unfold is_int, int_min, int_max in *. lia. }
  rewrite Hnext.
  destruct (Term e =? currentTerm st); simpl in *.
  - destruct (int_mul _ 2 >? int_add _ 1); simpl.
    + destruct (IH (i + 1) (set_commitIndex i st) ltac:(lia) Hl Hp
                  ltac:(simpl; unfold len in *; lia))
        as (c & Hrun & Hc & Hmax).
      rewrite Hrun. simpl. exists c. split; [done |]. simpl in *.
      assert (Hq : committable st i) by (by apply Htest).
      split.
      * right. destruct Hc as [-> | [? ?]]; [split; [lia | done] | split; [lia | done]].
      * intros j Hj Hcj. destruct (decide (j = i)) as [-> | ?].
        -- destruct Hc as [-> | [? ?]]; lia.
        -- apply Hmax; [lia | done].
    + destruct (IH (i + 1) st ltac:(lia) Hl Hp ltac:(unfold len in *; lia))
        as (c & Hrun & Hc & Hmax).
      rewrite Hrun. simpl. exists c. split; [done |]. split.
      * destruct Hc as [-> | [? ?]]; [by left | right; split; [lia | done]].
      * intros j Hj Hcj. destruct (decide (j = i)) as [-> | ?].
        -- apply Htest in Hcj. discriminate.
        -- apply Hmax; [lia | done].
  - destruct (IH (i + 1) st ltac:(lia) Hl Hp ltac:(unfold len in *; lia))
      as (c & Hrun & Hc & Hmax).
    rewrite Hrun. simpl. exists c. split; [done |]. split.
    * destruct Hc as [-> | [? ?]]; [by left | right; split; [lia | done]].
    * intros j Hj Hcj. destruct (decide (j = i)) as [-> | ?].
      -- apply Htest in Hcj. discriminate.
      -- apply Hmax; [lia | done].
Qed.

(** C5. On a successful reply the leader first records [nextIndex] and
    [matchIndex] of the peer and then scans the indices from
    [commitIndex + 1] to [len(log) - 1]: [commitIndex] either stays, or it
    moves to an index of that range whose entry has the current term and
    is held by a majority (2 * count > len(peerIds) + 1, the leader
    counted); it ends at the last such index.  (The hypotheses on
    [commitIndex] are the spec's invariants 3 and 4; the bounds on the
    lengths hold of every Go slice.) *)
Theorem commitIndex_advance (peerId ni : Z) (entries : list (LogEntry Cmd))
    (savedCurrentTerm : Z) (reply : AppendEntriesReply) now st :
  state st = Leader →
  aeReplyTerm reply = savedCurrentTerm →
  Success reply = true →
  -1 <= commitIndex st < len (log st) →
  slice_ok (log st) →
  2 * (len (peerIds st) + 1) <= int_max →
  ∃ st' tr,
    sendAppendEntries_reply peerId ni entries savedCurrentTerm reply now st
    = Ok (tt, st', tr)
    ∧ log st' = log st
    ∧ currentTerm st' = currentTerm st
    ∧ peerIds st' = peerIds st
    ∧ matchIndex st'
      = <[peerId := int_sub (int_add ni (len entries)) 1]> (matchIndex st)
    ∧ (commitIndex st' = commitIndex st
       ∨ (commitIndex st < commitIndex st' < len (log st)
          ∧ committable st' (commitIndex st')))
    ∧ (∀ j, commitIndex st < j < len (log st) →
            committable st' j → j <= commitIndex st').
Proof.
  intros HL HT HS Hc Hl Hp.
  unfold sendAppendEntries_reply. unfold_M. simpl.
  destruct (Z.gtb_spec (aeReplyTerm reply) savedCurrentTerm); [lia |].
  rewrite bool_decide_eq_true_2 by done.
  destruct (Z.eqb_spec savedCurrentTerm (aeReplyTerm reply)); [| congruence].
  rewrite HS. simpl.
  unfold mapGet at 1. rewrite lookup_insert_eq. simpl.
  set (st1 := set_matchIndex _ (set_nextIndex _ st)).
  assert (Hstart : int_add (commitIndex st) 1 = commitIndex st + 1).
  { unfold int_add. apply wrap_id. unfold slice_ok, is_int, int_min, int_max in *. lia. }
  rewrite Hstart.
  destruct (commitScan_run (S (length (log st))) (commitIndex st + 1) now st1
              ltac:(lia) Hl Hp ltac:(simpl; lia)) as (c & Hrun & Hcc & Hmax).
  rewrite Hrun. simpl.
  destruct (Z.eqb_spec c (commitIndex st)) as [-> | Hne]; simpl.
  - eexists _, _. split; [reflexivity |]. simpl. repeat split; auto.
    intros j Hj Hcj. apply Hmax; [simpl; lia | done].
  - eexists _, _. split; [reflexivity |]. simpl. repeat split; auto.
    + right. destruct Hcc as [? | [? ?]]; [done |]. simpl in *. split; [lia | done].
    + intros j Hj Hcj. apply Hmax; [simpl; lia | done].
Qed.

(** ** Channel sends and the mutex *)





(** ** The fuel of the loops is enough *)

Lemma wrap_succ_neg (z : Z) : 0 <= z → is_int z → wrap (z + 1) = z + 1 ∨ wrap (z + 1) < 0.
Proof.
  intros H0 Hz. destruct (decide (z + 1 <= int_max)) as [Hle | Hgt].
  - left. apply wrap_id. unfold is_int, int_min, int_max in *. lia.
  - right. assert (z = int_max) as -> by (unfold is_int in *; lia).
    vm_compute. reflexivity.
Qed.

Lemma reconcileLoop_fuel (fuel : nat) (l entries : list (LogEntry Cmd))
    (logInsertIndex newEntriesIndex : Z) :
  is_int newEntriesIndex →
  (0 < fuel)%nat →
  (0 <= newEntriesIndex → len entries - newEntriesIndex < Z.of_nat fuel) →
  reconcileLoop fuel l entries logInsertIndex newEntriesIndex ≠ OutOfFuel.
Proof.
  revert logInsertIndex newEntriesIndex.
  induction fuel as [| fuel IH]; intros lii nei Hint Hpos Hfuel; [lia |].
  rewrite reconcileLoop_S.
  destruct ((lii >=? len l) || (nei >=? len entries)) eqn:Hexit; [done |].
  bool_to_prop.
  destruct (index l lii) as [a | |]; try done.
  destruct (index entries nei) as [b | |] eqn:Hb; try done.
  apply index_Ok in Hb as [Hnei _].
  destruct (negb (Term a =? Term b)); [done |].
  unfold int_add. apply IH.
  - apply wrap_is_int.
  - lia.
  - destruct (wrap_succ_neg nei Hnei Hint) as [-> | ?]; lia.
Qed.

Lemma commitScan_fuel (fuel : nat) (i : Z) now st :
  is_int i →
  (0 < fuel)%nat →
  (0 <= i → len (log st) - i < Z.of_nat fuel) →
  commitScan fuel i now st ≠ OutOfFuel.
Proof.
  revert i st. induction fuel as [| fuel IH]; intros i st Hint Hpos Hfuel; [lia |].
  rewrite commitScan_S. unfold_M. simpl.
  destruct (Z.ltb_spec i (len (log st))) as [Hlt | Hge]; [| done].
  destruct (index (log st) i) as [e | |] eqn:He; try done.
  - apply index_Ok in He as [Hi _]. simpl.
    assert (Hnext : ∀ st2, log st2 = log st →
              commitScan fuel (int_add i 1) now st2 ≠ OutOfFuel).
    { intros st2 Hlog. unfold int_add. apply IH.
      - apply wrap_is_int.
      - lia.
      - rewrite Hlog. destruct (wrap_succ_neg i Hi Hint) as [-> | ?]; lia. }
    destruct (Term e =? currentTerm st); simpl.
    + destruct (int_mul _ 2 >? int_add _ 1); simpl.
      * pose proof (Hnext (set_commitIndex i st) eq_refl) as Hn.
        destruct (commitScan fuel (int_add i 1) now (set_commitIndex i st))
          as [[[? ?] ?] | |]; done.
      * pose proof (Hnext st eq_refl) as Hn.
        destruct (commitScan fuel (int_add i 1) now st) as [[[? ?] ?] | |]; done.
    + pose proof (Hnext st eq_refl) as Hn.
      destruct (commitScan fuel (int_add i 1) now st) as [[[? ?] ?] | |]; done.
  - by apply index_never_OutOfFuel in He.
Qed.

(** No handler runs out of fuel, whatever the record and the request. *)
Lemma AppendEntries_fuel (args : AppendEntriesArgs Cmd)
    (reply : AppendEntriesReply) now st :
  AppendEntries args reply now st ≠ OutOfFuel.
Proof.
  assert (Hloop : ∀ l, reconcileLoop (S (length (Entries args))) l (Entries args)
                    (int_add (PrevLogIndex args) 1) 0 ≠ OutOfFuel).
  { intros l. apply reconcileLoop_fuel.
    - by vm_compute.
    - lia.
    - unfold len. lia. }
  unfold AppendEntries, becomeFollower. unfold_M. intros Hrun.
  repeat (case_match; simplify_eq; simpl in *; try done);
    try match goal with
      | H : index _ _ = OutOfFuel |- _ => by apply index_never_OutOfFuel in H
      | H : sliceTo _ _ = OutOfFuel |- _ => unfold sliceTo in H; by case_match
      | H : sliceFrom _ _ = OutOfFuel |- _ => unfold sliceFrom in H; by case_match
      | H : reconcileLoop _ _ _ _ _ = OutOfFuel |- _ => by apply Hloop in H
      end.
Qed.

Lemma sendAppendEntries_reply_fuel (peerId ni : Z) (entries : list (LogEntry Cmd))
    (savedCurrentTerm : Z) (reply : AppendEntriesReply) now st :
  sendAppendEntries_reply peerId ni entries savedCurrentTerm reply now st
  ≠ OutOfFuel.
Proof.
  assert (Hscan : ∀ st2, log st2 = log st →
            commitScan (S (length (log st))) (int_add (commitIndex st) 1) now st2
            ≠ OutOfFuel).
  { intros st2 Hlog. apply commitScan_fuel.
    - apply wrap_is_int.
    - lia.
    - rewrite Hlog. unfold len. lia. }
  unfold sendAppendEntries_reply, becomeFollower. unfold_M. intros Hrun.
  repeat (case_match; simplify_eq; simpl in *; try done);
    try match goal with
      | H : commitScan _ _ _ _ = OutOfFuel |- _ => by apply Hscan in H
      end.
Qed.

(** [log[prevLogIndex]] with [prevLogIndex < -1] is a run-time panic. *)
Lemma AppendEntries_panics (args : AppendEntriesArgs Cmd)
    (reply : AppendEntriesReply) now st :
  state st ≠ Dead →
  currentTerm st <= aeTerm args →
  PrevLogIndex args < -1 →
  AppendEntries args reply now st = Panic.
Proof.
  intros HD Hterm HP.
  pose proof (len_nonneg (log st)) as Hn.
  assert (Hidx : index (log st) (PrevLogIndex args) = Panic).
  { unfold index. destruct (Z.ltb_spec (PrevLogIndex args) 0); [done | lia]. }
  unfold AppendEntries, becomeFollower. unfold_M. simpl.
  case_decide; [contradiction |].
  destruct (Z.gtb_spec (aeTerm args) (currentTerm st)) as [Hgt | Hgt]; simpl;
    [rewrite Z.eqb_refl
    | rewrite (proj2 (Z.eqb_eq _ _)) by lia; case_decide]; simpl.
  all: destruct (Z.eqb_spec (PrevLogIndex args) (-1)); [lia |].
  all: destruct (Z.ltb_spec (PrevLogIndex args) (len (log st))); [| lia].
  all: by rewrite Hidx.
Qed.

End Properties.

(** * Further properties of the code *)

Section MoreProperties.

Context {Cmd : Type}.
Implicit Types (st cm : ConsensusModule Cmd) (now : Time).

(** ** The RPC handlers on a stopped replica *)

(** X1. On a Dead replica RequestVote and AppendEntries return at once:
    the reply behind the caller's pointer and the record are left as they
    were. *)
Theorem handlers_ignore_on_Dead (rv : RequestVoteArgs) (rvReply : RequestVoteReply)
    (ae : AppendEntriesArgs Cmd) (aeReply : AppendEntriesReply) now st :
  state st = Dead →
  RequestVote rv rvReply now st = Ok (rvReply, st, [EvLock; EvUnlock])
  ∧ AppendEntries ae aeReply now st = Ok (aeReply, st, [EvLock; EvUnlock]).
Proof.
  intros HD. unfold RequestVote, AppendEntries. unfold_M. simpl.
  case_decide; [done | contradiction].
Qed.

(** ** RequestVote *)

(** X2. A RequestVote whose term is below [currentTerm] is answered with
    (currentTerm, false) and leaves the whole record as it was. *)
Theorem RequestVote_stale_term (args : RequestVoteArgs) (reply : RequestVoteReply)
    now st :
  state st ≠ Dead →
  slice_ok (log st) →
  rvTerm args < currentTerm st →
  RequestVote args reply now st
  = Ok (mkRequestVoteReply (currentTerm st) false, st, [EvLock; EvUnlock]).
Proof.
  intros HD Hok Hlt. unfold RequestVote.
  pose proof (lastLogIndexAndTerm_run now st Hok) as Hlast.
  destruct (lastIndexTerm (log st)) as [li lt].
  unfold_M. simpl. case_decide; [contradiction |].
  rewrite Hlast. simpl.
  destruct (Z.gtb_spec (rvTerm args) (currentTerm st)); [lia |]. simpl.
  destruct (Z.eqb_spec (currentTerm st) (rvTerm args)); [lia |]. reflexivity.
Qed.

(** X3. Whenever a handler replies on a replica that is not Dead, the
    replica's term is the larger of its old term and the request's, and the
    reply carries it: no reply has a term below the request's. *)
Theorem handlers_term_is_max (rv : RequestVoteArgs) (rvReply : RequestVoteReply)
    (ae : AppendEntriesArgs Cmd) (aeReply : AppendEntriesReply) now st :
  state st ≠ Dead →
  (∀ r st' tr, RequestVote rv rvReply now st = Ok (r, st', tr) →
     currentTerm st' = Z.max (currentTerm st) (rvTerm rv)
     ∧ rvReplyTerm r = currentTerm st')
  ∧ (∀ r st' tr, AppendEntries ae aeReply now st = Ok (r, st', tr) →
       currentTerm st' = Z.max (currentTerm st) (aeTerm ae)
       ∧ aeReplyTerm r = currentTerm st').
Proof.
  intros HD. split; intros r st' tr Hrun.
  - unfold RequestVote, lastLogIndexAndTerm, becomeFollower in Hrun. unfold_M.
    break_run; bool_to_prop; simpl; split; try reflexivity; lia.
  - unfold AppendEntries, becomeFollower in Hrun. unfold_M.
    break_run; bool_to_prop; simpl; split; try reflexivity; lia.
Qed.

(** X4. RequestVote touches nothing but the role, the term, the vote and
    the election timer: log, commit and apply indices, leader bookkeeping,
    identity and storage are as before, and no channel send happens. *)
Theorem RequestVote_frame (args : RequestVoteArgs) (reply : RequestVoteReply)
    now st r st' tr :
  RequestVote args reply now st = Ok (r, st', tr) →
  log st' = log st ∧ commitIndex st' = commitIndex st
  ∧ lastApplied st' = lastApplied st
  ∧ nextIndex st' = nextIndex st ∧ matchIndex st' = matchIndex st
  ∧ cm_id st' = cm_id st ∧ peerIds st' = peerIds st
  ∧ storage st' = storage st
  ∧ hasSend tr = false.
Proof.
  unfold RequestVote, lastLogIndexAndTerm, becomeFollower. unfold_M.
  intros H. break_run.
Qed.

(** The last index and term are read off the log alone. *)
Lemma lastLogIndexAndTerm_inv now st p st' tr :
  lastLogIndexAndTerm now st = Ok (p, st', tr) →
  st' = st ∧ tr = []
  ∧ ∀ now2 st2, log st2 = log st →
      lastLogIndexAndTerm now2 st2 = Ok (p, st2, []).
Proof.
  unfold lastLogIndexAndTerm. unfold_M. simpl. intros H.
  destruct (len (log st) >? 0) eqn:Hlen.
  - destruct (index (log st) (int_sub (len (log st)) 1)) as [e | |] eqn:He;
      simpl in H; simplify_eq.
    split; [done |]. split; [done |].
    intros now2 st2 Hlog. rewrite Hlog, Hlen, He. reflexivity.
  - simplify_eq. split; [done |]. split; [done |].
    intros now2 st2 Hlog. rewrite Hlog, Hlen. reflexivity.
Qed.

(** RequestVote on a replica that is not Dead, run to its end. *)
Lemma RequestVote_run (args : RequestVoteArgs) (reply : RequestVoteReply)
    now st li lt :
  state st ≠ Dead →
  lastLogIndexAndTerm now st = Ok ((li, lt), st, []) →
  let st1 := afterTermCatchUp (rvTerm args) now st in
  let granted :=
    (currentTerm st1 =? rvTerm args)
    && ((votedFor st1 =? -1) || (votedFor st1 =? CandidateId args))
    && ((LastLogTerm args >? lt)
        || ((LastLogTerm args =? lt) && (LastLogIndex args >=? li))) in
  ∃ tr,
    RequestVote args reply now st
    = Ok (mkRequestVoteReply (currentTerm st1) granted,
          (if granted
           then set_electionResetEvent now (set_votedFor (CandidateId args) st1)
           else st1),
          tr).
Proof.
  intros HD Hlast. simpl. unfold RequestVote, becomeFollower, afterTermCatchUp.
  unfold_M. simpl. case_decide; [contradiction |].
  rewrite Hlast. simpl.
  destruct (rvTerm args >? currentTerm st); simpl;
    match goal with
    | |- context [if ?c then _ else _] => destruct c
    end; simpl; by eexists.
Qed.

(** X5. A vote that was granted is granted again to the same candidate:
    repeating the request right after a grant is answered with the same
    reply and leaves role, term and vote as they are. *)
Theorem RequestVote_grant_repeated (args : RequestVoteArgs)
    (reply reply' : RequestVoteReply) (now now' : Time) st r st1 tr :
  state st ≠ Dead →
  RequestVote args reply now st = Ok (r, st1, tr) →
  VotedGranted r = true →
  ∃ st2 tr2,
    RequestVote args reply' now' st1 = Ok (r, st2, tr2)
    ∧ currentTerm st2 = currentTerm st1
    ∧ votedFor st2 = votedFor st1
    ∧ state st2 = state st1.
Proof.
  intros HD Hrun HG.
  assert (Hlast : ∃ li lt, lastLogIndexAndTerm now st = Ok ((li, lt), st, [])).
  { unfold RequestVote in Hrun. unfold_M.
    destruct (lastLogIndexAndTerm now st) as [[[[li lt] st0] tr0] | |] eqn:E.
    - apply lastLogIndexAndTerm_inv in E as (-> & -> & _). eauto.
    - revert Hrun. simpl. case_decide; [contradiction |]. by rewrite E.
    - revert Hrun. simpl. case_decide; [contradiction |]. by rewrite E. }
  destruct Hlast as (li & lt & Hlast).
  destruct (RequestVote_run args reply now st li lt HD Hlast) as [tr' Hrun'].
  rewrite Hrun in Hrun'. simplify_eq. simpl in HG.
  set (st1 := afterTermCatchUp (rvTerm args) now st) in *.
  rewrite HG. apply andb_true_iff in HG as [HG Hlog].
  apply andb_true_iff in HG as [Hterm Hvote]. apply Z.eqb_eq in Hterm.
  set (st2 := set_electionResetEvent now (set_votedFor (CandidateId args) st1)).
  assert (HD2 : state st2 ≠ Dead).
  { subst st2 st1. unfold afterTermCatchUp.
    destruct (rvTerm args >? currentTerm st); simpl; done. }
  pose proof (proj2 (proj2 (lastLogIndexAndTerm_inv _ _ _ _ _ Hlast)) now' st2) as Hlast2.
  specialize (Hlast2 ltac:(subst st2 st1; unfold afterTermCatchUp;
                            by destruct (rvTerm args >? currentTerm st))).
  destruct (RequestVote_run args reply' now' st2 li lt HD2 Hlast2) as [tr2 Hrun2].
  assert (Hcatch : afterTermCatchUp (rvTerm args) now' st2 = st2).
  { unfold afterTermCatchUp. subst st2. simpl.
    destruct (Z.gtb_spec (rvTerm args) (currentTerm st1)); [lia | done]. }
  rewrite Hcatch in Hrun2. simpl in Hrun2.
  rewrite Hlog in Hrun2.
  rewrite (proj2 (Z.eqb_eq _ _) Hterm), Z.eqb_refl, orb_true_r in Hrun2.
  simpl in Hrun2. rewrite Hterm.
  eexists _, _. split; [rewrite <- Hterm; exact Hrun2 |]. done.
Qed.

(** X6. A replica that has voted does not grant a request of another
    candidate that does not raise its term: vote and term stay. *)
Theorem RequestVote_other_candidate_denied (args : RequestVoteArgs)
    (reply : RequestVoteReply) now st r st' tr :
  state st ≠ Dead →
  votedFor st ≠ -1 →
  votedFor st ≠ CandidateId args →
  rvTerm args <= currentTerm st →
  RequestVote args reply now st = Ok (r, st', tr) →
  VotedGranted r = false ∧ st' = st.
Proof.
  intros HD Hv Hc Ht Hrun.
  unfold RequestVote, lastLogIndexAndTerm, becomeFollower in Hrun. unfold_M.
  break_run; bool_to_prop; try lia; destruct_or?; try lia; done.
Qed.

(** ** AppendEntries *)

(** A request that is not stale, once answered: the replica follows its
    term. *)
Lemma AppendEntries_follower_of_term (args : AppendEntriesArgs Cmd)
    (reply : AppendEntriesReply) now st r st' tr :
  state st ≠ Dead →
  currentTerm st <= aeTerm args →
  AppendEntries args reply now st = Ok (r, st', tr) →
  state st' = Follower
  ∧ currentTerm st' = aeTerm args
  ∧ electionResetEvent st' = now
  ∧ aeReplyTerm r = aeTerm args.
Proof.
  intros HD Ht Hrun.
  unfold AppendEntries, becomeFollower in Hrun. unfold_M.
  break_run; bool_to_prop; try lia; simpl; repeat split; try lia;
    try (by destruct (state _)); by apply dec_stable.
Qed.

(** X7. Every AppendEntries that is not stale and comes back leaves the
    replica a Follower of the request's term with its election timer
    reset, whether the entries were accepted or not. *)
Theorem AppendEntries_steps_down (args : AppendEntriesArgs Cmd)
    (reply : AppendEntriesReply) now st r st' tr :
  state st ≠ Dead →
  currentTerm st <= aeTerm args →
  AppendEntries args reply now st = Ok (r, st', tr) →
  state st' = Follower
  ∧ currentTerm st' = aeTerm args
  ∧ electionResetEvent st' = now
  ∧ aeReplyTerm r = aeTerm args.
Proof. apply AppendEntries_follower_of_term. Qed.

(** After the reconciliation every incoming entry has its term in the
    log at its place; the entry there is the incoming one or the one the
    log already had. *)
Lemma reconcile_spec_lookup (local incoming : list (LogEntry Cmd)) (k : nat)
    (b : LogEntry Cmd) :
  incoming !! k = Some b →
  ∃ e, reconcile_spec local incoming !! k = Some e
       ∧ Term e = Term b
       ∧ (e = b ∨ local !! k = Some e).
Proof.
  revert local k. induction incoming as [| b0 incoming IH]; intros local k Hk;
    [done |].
  destruct local as [| a local]; simpl.
  - exists b. split; [done |]. split; [done | by left].
  - destruct (Z.eqb_spec (Term a) (Term b0)) as [HT | HT].
    + destruct k as [| k]; simpl in *.
      * simplify_eq. exists a. split; [done |]. split; [done | by right].
      * apply (IH local) in Hk. exact Hk.
    + exists b. split; [done |]. split; [done | by left].
Qed.

(** Incoming entries that the log already holds, term by term, change
    nothing. *)
Lemma reconcile_spec_present (local incoming : list (LogEntry Cmd)) :
  (∀ k b, incoming !! k = Some b →
          ∃ e, local !! k = Some e ∧ Term e = Term b) →
  reconcile_spec local incoming = local.
Proof.
  revert local. induction incoming as [| b incoming IH]; intros local H;
    [done |].
  destruct (H O b eq_refl) as (a & Ha & HT).
  destruct local as [| a' local]; [done |]. simpl in Ha. simplify_eq. simpl.
  rewrite HT, Z.eqb_refl. f_equal. apply IH.
  intros k b' Hk. apply (H (S k) b' Hk).
Qed.

(** X8. After an accepted AppendEntries the log still starts with its
    first [prevLogIndex + 1] entries, and at the place of every incoming
    entry it holds an entry of the same term: the incoming entry itself or
    the entry that was there before. *)
Theorem AppendEntries_log_agrees (args : AppendEntriesArgs Cmd)
    (reply : AppendEntriesReply) now st r st' tr :
  state st ≠ Dead →
  slice_ok (log st) → slice_ok (Entries args) →
  AppendEntries args reply now st = Ok (r, st', tr) →
  Success r = true →
  let n := Z.to_nat (PrevLogIndex args + 1) in
  take n (log st') = take n (log st)
  ∧ ∀ k b, Entries args !! k = Some b →
      ∃ e, log st' !! (n + k)%nat = Some e
           ∧ Term e = Term b
           ∧ (e = b ∨ log st !! (n + k)%nat = Some e).
Proof.
  intros HD Hl He Hrun HS n.
  destruct (AppendEntries_Success_inv _ _ _ _ _ _ _ Hrun HD HS) as [Hterm Hcons].
  pose proof (logConsistent_range _ _ _ Hcons) as Hrange.
  destruct (AppendEntries_accept_run args reply now st HD Hterm Hl He Hcons)
    as (st2 & tr2 & Hrun2 & Hlog & _).
  rewrite Hrun in Hrun2. simplify_eq. fold n in Hlog.
  assert (Hn : length (take n (log st)) = n).
  { apply length_take_le. unfold len in *. lia. }
  split.
  - rewrite Hlog. by apply take_app_length'.
  - intros k b Hk.
    destruct (reconcile_spec_lookup (drop n (log st)) _ k b Hk)
      as (e & Hlk & HT & Hor).
    exists e. rewrite Hlog. split; [| split; [done |]].
    + rewrite lookup_app_r by lia. by rewrite Hn, Nat.add_comm, Nat.add_sub.
    + destruct Hor as [? | Hloc]; [by left | right].
      by rewrite lookup_drop in Hloc.
Qed.

(** X9. An accepted AppendEntries whose entries the log already holds,
    term by term (a heartbeat, or a request that was delivered before),
    leaves the log as it is: entries behind the incoming ones are not cut
    off. *)
Theorem AppendEntries_present_entries_keep_log (args : AppendEntriesArgs Cmd)
    (reply : AppendEntriesReply) now st r st' tr :
  state st ≠ Dead →
  slice_ok (log st) → slice_ok (Entries args) →
  AppendEntries args reply now st = Ok (r, st', tr) →
  Success r = true →
  (∀ k b, Entries args !! k = Some b →
     ∃ e, log st !! (Z.to_nat (PrevLogIndex args + 1) + k)%nat = Some e
          ∧ Term e = Term b) →
  log st' = log st.
Proof.
  intros HD Hl He Hrun HS Hpresent.
  destruct (AppendEntries_Success_inv _ _ _ _ _ _ _ Hrun HD HS) as [Hterm Hcons].
  destruct (AppendEntries_accept_run args reply now st HD Hterm Hl He Hcons)
    as (st2 & tr2 & Hrun2 & Hlog & _).
  rewrite Hrun in Hrun2. simplify_eq.
  rewrite Hlog, reconcile_spec_present; [apply take_drop |].
  intros k b Hk. rewrite lookup_drop. by apply Hpresent.
Qed.

(** X10. An AppendEntries that comes back without success has changed
    neither the log nor [commitIndex], and has sent nothing. *)
Theorem AppendEntries_reject_frame (args : AppendEntriesArgs Cmd)
    (reply : AppendEntriesReply) now st r st' tr :
  state st ≠ Dead →
  AppendEntries args reply now st = Ok (r, st', tr) →
  Success r = false →
  log st' = log st ∧ commitIndex st' = commitIndex st
  ∧ lastApplied st' = lastApplied st ∧ storage st' = storage st
  ∧ hasSend tr = false.
Proof.
  intros HD Hrun HS.
  unfold AppendEntries, becomeFollower in Hrun. unfold_M. break_run.
Qed.

(** The commit rule of the follower, in the arithmetic of the code. *)
Lemma AppendEntries_commit_int (args : AppendEntriesArgs Cmd)
    (reply : AppendEntriesReply) now st r st' tr :
  state st ≠ Dead →
  AppendEntries args reply now st = Ok (r, st', tr) →
  Success r = true →
  (LeaderCommit args > commitIndex st →
     commitIndex st'
     = intMin (LeaderCommit args) (int_sub (len (log st')) 1))
  ∧ (LeaderCommit args <= commitIndex st → commitIndex st' = commitIndex st).
Proof.
  intros HD Hrun HS.
  unfold AppendEntries, becomeFollower in Hrun. unfold_M.
  break_run; bool_to_prop; split; intros; try lia; done.
Qed.

(** X11. On an accepted AppendEntries the follower moves [commitIndex] only
    when the leader's is ahead of it, to the smaller of the leader's
    [commitIndex] and the index of its own last entry, and signals the
    commit loop: its one send is a blocking send on the new-commit-ready
    channel, made while the mutex is held.  Otherwise [commitIndex] stays
    and the handler sends on no channel. *)
Theorem AppendEntries_commit_rule (args : AppendEntriesArgs Cmd)
    (reply : AppendEntriesReply) now st r st' tr :
  state st ≠ Dead →
  len (log st) + len (Entries args) <= int_max →
  AppendEntries args reply now st = Ok (r, st', tr) →
  Success r = true →
  (LeaderCommit args > commitIndex st →
     commitIndex st' = Z.min (LeaderCommit args) (len (log st') - 1)
     ∧ commitIndex st' < len (log st')
     ∧ sendsOf false tr = [(newCommitReadyChan, Blocking, true)])
  ∧ (LeaderCommit args <= commitIndex st →
       commitIndex st' = commitIndex st ∧ sendsOf false tr = []).
Proof.
  intros HD Hlen Hrun HS.
  pose proof (len_nonneg (log st)) as Hn1.
  pose proof (len_nonneg (Entries args)) as Hn2.
  pose proof (AppendEntries_sends _ _ _ _ _ _ _ HD Hrun) as Hsends.
  rewrite HS in Hsends. simpl in Hsends.
  destruct (AppendEntries_commit_int _ _ _ _ _ _ _ HD Hrun HS) as [Hup Hkeep].
  split.
  2:{ intros Hle. split; [by apply Hkeep |]. rewrite Hsends.
      destruct (Z.gtb_spec (LeaderCommit args) (commitIndex st)); [lia | done]. }
  intros Hgt. pose proof (Hup Hgt) as Hc.
  destruct (AppendEntries_Success_inv _ _ _ _ _ _ _ Hrun HD HS) as [Hterm Hcons].
  pose proof (logConsistent_range _ _ _ Hcons) as Hrange.
  destruct (AppendEntries_accept_run args reply now st HD Hterm
              ltac:(unfold slice_ok; lia) ltac:(unfold slice_ok; lia) Hcons)
    as (st2 & tr2 & Hrun2 & Hlog & _).
  assert (st2 = st') as -> by congruence.
  pose proof (reconcile_spec_length
                (drop (Z.to_nat (PrevLogIndex args + 1)) (log st)) (Entries args))
    as Hrl.
  assert (Hlen' : 0 <= len (log st') <= int_max).
  { split; [apply len_nonneg |]. unfold len in *.
    rewrite Hlog, length_app, length_take_le by lia.
    rewrite length_drop in Hrl. lia. }
  unfold intMin, int_sub in Hc.
  rewrite wrap_id in Hc by (unfold is_int, int_min, int_max in *; lia).
  split; [exact Hc |]. split; [lia |]. rewrite Hsends.
  destruct (Z.gtb_spec (LeaderCommit args) (commitIndex st)); [done | lia].
Qed.

(** ** Winning an election *)

(** A loop whose body only updates the record is a fold. *)
Lemma forRange_fold {A : Type} (l : list A) (f : A → M Cmd unit)
    (g : ConsensusModule Cmd → A → ConsensusModule Cmd) now st :
  (∀ x s, f x now s = Ok (tt, g s x, [])) →
  forRange l f now st = Ok (tt, foldl g st l, []).
Proof.
  intros Hf. revert st. induction l as [| x l IH]; intros st; [reflexivity |].
  simpl. unfold mbind, M_bind, bind. by rewrite Hf, IH.
Qed.

(** The loop of [startLeader], as a fold over the peers. *)
Lemma startLeader_loop (peers : list Z) now st :
  forRange (Cmd := Cmd) peers (λ peerId,
    modify (λ cm, set_nextIndex (<[peerId := len (log cm)]> (nextIndex cm)) cm);;
    modify (λ cm, set_matchIndex (<[peerId := -1]> (matchIndex cm)) cm)) now st
  = Ok (tt,
        foldl (λ cm peerId,
                 set_matchIndex (<[peerId := -1]> (matchIndex cm))
                   (set_nextIndex (<[peerId := len (log cm)]> (nextIndex cm)) cm))
              st peers,
        []).
Proof. apply forRange_fold. reflexivity. Qed.

Lemma startLeader_fold (peers : list Z) st :
  let st' :=
    foldl (λ cm peerId,
             set_matchIndex (<[peerId := -1]> (matchIndex cm))
               (set_nextIndex (<[peerId := len (log cm)]> (nextIndex cm)) cm))
          st peers in
  st' = set_matchIndex (matchIndex st') (set_nextIndex (nextIndex st') st)
  ∧ (∀ p, p ∈ peers →
       nextIndex st' !! p = Some (len (log st)) ∧ matchIndex st' !! p = Some (-1))
  ∧ (∀ p, p ∉ peers →
       nextIndex st' !! p = nextIndex st !! p
       ∧ matchIndex st' !! p = matchIndex st !! p).
Proof.
  revert st. induction peers as [| q peers IH]; intros st; simpl.
  - split; [by destruct st |]. split; [intros p Hp; by apply not_elem_of_nil in Hp | done].
  - specialize (IH (set_matchIndex (<[q := -1]> (matchIndex st))
                      (set_nextIndex (<[q := len (log st)]> (nextIndex st)) st))).
    simpl in IH. destruct IH as (Heq & Hin & Hout).
    split; [rewrite Heq at 1; reflexivity |]. split.
    + intros p Hp. destruct (decide (p ∈ peers)) as [Hp' | Hp'].
      * by apply Hin.
      * apply elem_of_cons in Hp as [-> | ?]; [| done].
        destruct (Hout q Hp') as [-> ->]. simpl.
        by rewrite !lookup_insert_eq.
    + intros p Hp. apply not_elem_of_cons in Hp as [Hne Hp].
      destruct (Hout p Hp) as [-> ->]. simpl.
      by rewrite !lookup_insert_ne.
Qed.

(** [startLeader], run to its end. *)
Lemma startLeader_Leader now st :
  ∃ st', startLeader now st = Ok (tt, st', [EvGo heartbeatGo])
         ∧ state st' = Leader.
Proof.
  unfold startLeader.
  unfold mbind at 1 2 3, M_bind at 1 2 3, bind, modify at 1, get, go, emit.
  cbv beta iota. rewrite startLeader_loop. simpl.
  eexists. split; [reflexivity |].
  destruct (startLeader_fold (peerIds st) (set_state Leader st)) as (Heq & _).
  by rewrite Heq.
Qed.

(** X12. [startLeader] makes the replica Leader and starts the heartbeat
    loop; for every peer it sets [nextIndex] to the length of the log and
    [matchIndex] to -1, entries of these maps for other ids stay, and
    nothing else of the record changes. *)
Theorem startLeader_initialises now st :
  ∃ st',
    startLeader now st = Ok (tt, st', [EvGo heartbeatGo])
    ∧ st' = set_matchIndex (matchIndex st')
              (set_nextIndex (nextIndex st') (set_state Leader st))
    ∧ (∀ p, p ∈ peerIds st →
         mapGet (nextIndex st') p = len (log st)
         ∧ mapGet (matchIndex st') p = -1)
    ∧ (∀ p, p ∉ peerIds st →
         nextIndex st' !! p = nextIndex st !! p
         ∧ matchIndex st' !! p = matchIndex st !! p).
Proof.
  unfold startLeader.
  unfold mbind at 1 2 3, M_bind at 1 2 3, bind, modify at 1, get, go, emit.
  cbv beta iota. rewrite startLeader_loop. simpl.
  eexists. split; [reflexivity |].
  destruct (startLeader_fold (peerIds st) (set_state Leader st))
    as (Heq & Hin & Hout).
  split; [exact Heq |]. split; [| exact Hout].
  intros p Hp. destruct (Hin p Hp) as [H1 H2]. unfold mapGet.
  simpl in *. by rewrite H1, H2.
Qed.

(** X13. The goroutine that receives a vote reply counts it only while the
    replica is Candidate, the reply has the term of the election and the
    vote was granted; it enters [startLeader] exactly when the count,
    this vote included, is then more than half of the replicas.  A reply
    that arrives when the replica is no longer Candidate changes nothing. *)
Theorem startElection_reply_counts (savedCurrentTerm votesReceived : Z)
    (reply : RequestVoteReply) now st :
  rvReplyTerm reply <= savedCurrentTerm →
  0 <= votesReceived < 2 ^ 31 - 1 →
  2 * (len (peerIds st) + 1) <= int_max →
  let counted := bool_decide (state st = Candidate)
                 && (rvReplyTerm reply =? savedCurrentTerm)
                 && VotedGranted reply in
  let wins := counted && (2 * (votesReceived + 1) >? len (peerIds st) + 1) in
  ∃ st' tr,
    startElection_reply savedCurrentTerm votesReceived reply now st
    = Ok ((if counted then votesReceived + 1 else votesReceived), st', tr)
    ∧ (wins = true → state st' = Leader
                     ∧ tr = [EvLock; EvGo heartbeatGo; EvUnlock])
    ∧ (wins = false → st' = st ∧ tr = [EvLock; EvUnlock]).
Proof.
  intros Hterm Hvotes Hpeers. simpl.
  pose proof (len_nonneg (peerIds st)) as Hn.
  assert (Hw : wrap32 (votesReceived + 1) = votesReceived + 1).
  { unfold wrap32. rewrite Z.mod_small by lia. lia. }
  unfold startElection_reply, becomeFollower. unfold_M. simpl.
  destruct (decide (state st = Candidate)) as [HC | HC].
  2:{ rewrite bool_decide_eq_true_2 by done.
      rewrite (bool_decide_eq_false_2 (state st = Candidate)) by done. simpl.
      eexists _, _. split; [reflexivity |]. split; [done | by intros _]. }
  rewrite bool_decide_eq_false_2 by (intros H; by apply H).
  rewrite (bool_decide_eq_true_2 (state st = Candidate)) by done. simpl.
  destruct (Z.gtb_spec (rvReplyTerm reply) savedCurrentTerm); [lia |].
  destruct (rvReplyTerm reply =? savedCurrentTerm); simpl;
    [| eexists _, _; split; [reflexivity |]; split; [done | by intros _]].
  destruct (VotedGranted reply); simpl;
    [| eexists _, _; split; [reflexivity |]; split; [done | by intros _]].
  rewrite Hw. unfold int_mul, int_add.
  rewrite !wrap_id by (unfold is_int, int_min, int_max in *; lia).
  replace ((votesReceived + 1) * 2) with (2 * (votesReceived + 1)) by lia.
  destruct (2 * (votesReceived + 1) >? len (peerIds st) + 1); simpl.
  - destruct (startLeader_Leader now st) as (st' & Hrun & HL).
    rewrite Hrun. simpl. eexists _, _. split; [reflexivity |].
    split; [| done]. by intros _.
  - eexists _, _. split; [reflexivity |]. split; [done | by intros _].
Qed.

(** ** The leader's requests and replies *)

(** X14. A reply to an AppendEntries is dropped, the record staying as it
    is, when its term is below the term of the request, or when its term
    is that of the request but the replica is no longer Leader. *)
Theorem sendAppendEntries_reply_dropped (peerId ni : Z)
    (entries : list (LogEntry Cmd)) (savedCurrentTerm : Z)
    (reply : AppendEntriesReply) now st :
  aeReplyTerm reply <= savedCurrentTerm →
  aeReplyTerm reply < savedCurrentTerm ∨ state st ≠ Leader →
  sendAppendEntries_reply peerId ni entries savedCurrentTerm reply now st
  = Ok (tt, st, [EvLock; EvUnlock]).
Proof.
  intros Hle Hor. unfold sendAppendEntries_reply. unfold_M. simpl.
  destruct (Z.gtb_spec (aeReplyTerm reply) savedCurrentTerm); [lia |].
  destruct (decide (state st = Leader)) as [HL | HL].
  - destruct Hor as [Hlt | ?]; [| done].
    rewrite bool_decide_eq_true_2 by done.
    destruct (Z.eqb_spec savedCurrentTerm (aeReplyTerm reply)); [lia | done].
  - by rewrite bool_decide_eq_false_2 by done.
Qed.

(** The request for a peer whose [nextIndex] lies within the log. *)
Lemma sendAppendEntries_args_run (peerId savedCurrentTerm : Z) now st :
  slice_ok (log st) →
  let ni := mapGet (nextIndex st) peerId in
  0 <= ni <= len (log st) →
  ∃ prevLogTerm,
    sendAppendEntries_args peerId savedCurrentTerm now st
    = Ok ((ni, mkAppendEntriesArgs savedCurrentTerm (cm_id st) (ni - 1)
                 prevLogTerm (drop (Z.to_nat ni) (log st)) (commitIndex st)),
          st, [EvLock; EvUnlock])
    ∧ (ni = 0 → prevLogTerm = -1)
    ∧ (0 < ni → ∃ e, log st !! Z.to_nat (ni - 1) = Some e
                     ∧ prevLogTerm = Term e).
Proof.
  intros Hl ni Hni. unfold slice_ok, is_int, int_min, int_max in *.
  unfold sendAppendEntries_args. unfold_M. simpl. fold ni.
  assert (Hpre : int_sub ni 1 = ni - 1).
  { apply wrap_id. unfold is_int, int_min, int_max. lia. }
  rewrite Hpre, sliceFrom_run by lia.
  destruct (Z.geb_spec (ni - 1) 0) as [Hge | Hlt].
  - destruct (index_in_range (log st) (ni - 1) ltac:(lia)) as (e & He & Hlk).
    rewrite He. simpl. eexists. split; [reflexivity |].
    split; [lia |]. intros _. eauto.
  - simpl. eexists. split; [reflexivity |]. split; [done | lia].
Qed.

(** X15. The leader can build a request for a peer exactly when
    [nextIndex[peer]] lies within [0, len(log)]; outside of it the
    goroutine panics on the log.  The request carries the index and the
    term of the entry before [nextIndex[peer]] (-1 and -1 when there is
    none), all entries from [nextIndex[peer]] on, and [commitIndex]; the
    record is not changed. *)
Theorem sendAppendEntries_args_builds (peerId savedCurrentTerm : Z) now st :
  slice_ok (log st) →
  is_int (mapGet (nextIndex st) peerId) →
  let ni := mapGet (nextIndex st) peerId in
  (0 <= ni <= len (log st) →
     ∃ prevLogTerm,
       sendAppendEntries_args peerId savedCurrentTerm now st
       = Ok ((ni, mkAppendEntriesArgs savedCurrentTerm (cm_id st) (ni - 1)
                    prevLogTerm (drop (Z.to_nat ni) (log st)) (commitIndex st)),
             st, [EvLock; EvUnlock])
       ∧ (ni = 0 → prevLogTerm = -1)
       ∧ (0 < ni → ∃ e, log st !! Z.to_nat (ni - 1) = Some e
                        ∧ prevLogTerm = Term e))
  ∧ (ni < 0 ∨ len (log st) < ni →
     sendAppendEntries_args peerId savedCurrentTerm now st = Panic).
Proof.
  intros Hl Hint ni. split.
  - by apply sendAppendEntries_args_run.
  - unfold slice_ok, is_int, int_min, int_max in *.
    pose proof (len_nonneg (log st)) as Hn. fold ni in Hint.
    unfold sendAppendEntries_args. unfold_M. simpl. fold ni.
    intros Hout.
    assert (Hslice : ni < 0 → sliceFrom (log st) ni = Panic).
    { intros H. unfold sliceFrom. destruct (Z.ltb_spec ni 0); [done | lia]. }
    destruct (int_sub ni 1 >=? 0) eqn:Hge.
    + destruct (index (log st) (int_sub ni 1)) as [e | |] eqn:He; simpl;
        [| done | by apply index_never_OutOfFuel in He].
      apply index_Ok in He as [H0 Hlk]. apply lookup_lt_Some in Hlk.
      destruct (decide (ni = - 2 ^ 63)) as [Heq | Hne].
      * assert (Hw : int_sub (- 2 ^ 63) 1 = 2 ^ 63 - 1) by (vm_compute; reflexivity).
        rewrite Heq, Hw in Hlk. unfold len in *. lia.
      * unfold int_sub in *.
        rewrite wrap_id in * by (unfold is_int, int_min, int_max; lia).
        destruct Hout as [? | ?]; [lia |]. unfold len in *. lia.
    + simpl. rewrite Hslice; [done |].
      destruct Hout as [? | Hgt]; [done |]. exfalso.
      unfold int_sub in Hge.
      rewrite wrap_id in Hge by (unfold is_int, int_min, int_max; lia).
      bool_to_prop. lia.
Qed.

(** The commit scan changes [commitIndex] only. *)
Lemma commitScan_frame (fuel : nat) (i : Z) now st u st' tr :
  commitScan fuel i now st = Ok (u, st', tr) →
  ∃ c, st' = set_commitIndex c st.
Proof.
  revert i st u st' tr.
  induction fuel as [| fuel IH]; intros i st u st' tr; [done |].
  rewrite commitScan_S. unfold_M. intros Hrun.
  repeat (case_match; simplify_eq; simpl in *; try done);
    try match goal with
      | H : commitScan _ _ _ _ = Ok _ |- _ =>
          apply IH in H as [c' Hc]; exists c'; rewrite Hc; reflexivity
      end.
  exists (commitIndex st'). by destruct st'.
Qed.

Lemma reconcile_spec_prefix (p q : list (LogEntry Cmd)) :
  reconcile_spec p (p ++ q) = p ++ q.
Proof.
  induction p as [| a p IH]; simpl.
  - by destruct q.
  - by rewrite Z.eqb_refl, IH.
Qed.

(** X16. Replication.  When the follower's log is a prefix of the leader's
    that reaches [nextIndex[peer]], the request the leader builds for it is
    accepted and leaves the follower with the leader's log, unless the
    follower's new-commit-ready channel is closed and the request moves
    its [commitIndex]: then the handler panics on the send. *)
Theorem AppendEntries_of_leader_replicates (peerId savedCurrentTerm : Z)
    (reply : AppendEntriesReply) (closed : bool) (now now' : Time)
    (leader follower : ConsensusModule Cmd) (m : nat) :
  slice_ok (log leader) →
  state follower ≠ Dead →
  currentTerm follower <= savedCurrentTerm →
  log follower = take m (log leader) →
  0 <= mapGet (nextIndex leader) peerId <= Z.of_nat m →
  (m <= length (log leader))%nat →
  ∃ ni args tr,
    sendAppendEntries_args peerId savedCurrentTerm now leader
    = Ok ((ni, args), leader, tr)
    ∧ (closed = true ∧ commitIndex leader > commitIndex follower →
       withChannel closed (AppendEntries args reply) now' follower = Panic)
    ∧ (¬ (closed = true ∧ commitIndex leader > commitIndex follower) →
       ∃ follower' tr',
         withChannel closed (AppendEntries args reply) now' follower
         = Ok (mkAppendEntriesReply savedCurrentTerm true, follower', tr')
         ∧ log follower' = log leader).
Proof.
  intros Hl HD Hterm Hlog Hni Hm. unfold slice_ok in Hl.
  set (ni := mapGet (nextIndex leader) peerId) in *.
  destruct (sendAppendEntries_args_run peerId savedCurrentTerm now leader Hl
              ltac:(fold ni; unfold len; lia)) as (pt & Hargs & Hpt0 & Hpt).
  fold ni in Hargs, Hpt0, Hpt.
  set (args := mkAppendEntriesArgs savedCurrentTerm (cm_id leader) (ni - 1) pt
                 (drop (Z.to_nat ni) (log leader)) (commitIndex leader)) in *.
  assert (Hlenf : length (log follower) = m).
  { rewrite Hlog. by apply length_take_le. }
  assert (Hcons : logConsistent (log follower) (PrevLogIndex args) (PrevLogTerm args)).
  { simpl. destruct (decide (ni = 0)) as [H0 | H0]; [left; lia | right].
    destruct (Hpt ltac:(lia)) as (e & He & ->).
    split; [unfold len; lia |]. exists e. split; [| done].
    apply index_Ok. split; [lia |]. rewrite Hlog. rewrite lookup_take_lt by lia. done. }
  destruct (AppendEntries_accept_run args reply now' follower HD Hterm)
    as (f' & tr' & Hrun & Hlog' & _); [| | exact Hcons |].
  { unfold slice_ok, len in *. lia. }
  { unfold slice_ok, len in *. simpl. rewrite length_drop. lia. }
  pose proof (AppendEntries_sends _ _ _ _ _ _ _ HD Hrun) as Hsends.
  simpl in Hsends.
  exists ni, args, [EvLock; EvUnlock].
  split; [exact Hargs |].
  unfold withChannel, sendsOn. rewrite Hrun, Hsends.
  destruct (Z.gtb_spec (commitIndex leader) (commitIndex follower)) as [Hgt | Hle].
  - split.
    + by intros [-> _].
    + intros Hno. destruct closed; [exfalso; apply Hno; split; [done | lia] |].
      simpl. exists f', tr'. split; [done |].
      rewrite Hlog'. simpl.
      replace (Z.to_nat (ni - 1 + 1)) with (Z.to_nat ni) by lia.
      assert (Hsplit : drop (Z.to_nat ni) (log leader)
                       = drop (Z.to_nat ni) (log follower) ++ drop m (log leader)).
      { rewrite Hlog. rewrite <- (take_drop m (log leader)) at 1.
        rewrite drop_app_le by (rewrite length_take_le by done; lia). done. }
      rewrite Hsplit, reconcile_spec_prefix, app_assoc, take_drop.
      rewrite Hlog. apply take_drop.
  - split; [intros [_ ?]; lia |]. intros _.
    rewrite andb_false_r. exists f', tr'. split; [done |].
    rewrite Hlog'. simpl.
    replace (Z.to_nat (ni - 1 + 1)) with (Z.to_nat ni) by lia.
    assert (Hsplit : drop (Z.to_nat ni) (log leader)
                     = drop (Z.to_nat ni) (log follower) ++ drop m (log leader)).
    { rewrite Hlog. rewrite <- (take_drop m (log leader)) at 1.
      rewrite drop_app_le by (rewrite length_take_le by done; lia). done. }
    rewrite Hsplit, reconcile_spec_prefix, app_assoc, take_drop.
    rewrite Hlog. apply take_drop.
Qed.

(** X17. When the peer answers a request with success, the leader records
    that the peer holds the log as it was when the request was built,
    whatever was appended since: [nextIndex[peer]] becomes the length of
    that log and [matchIndex[peer]] the index of its last entry. *)
Theorem sendAppendEntries_success_bookkeeping (peerId savedCurrentTerm : Z)
    (now now' : Time) st ni args tr st1 st2 st' tr' :
  slice_ok (log st) →
  sendAppendEntries_args peerId savedCurrentTerm now st = Ok ((ni, args), st1, tr) →
  state st2 = Leader →
  sendAppendEntries_reply peerId ni (Entries args) savedCurrentTerm
    (mkAppendEntriesReply savedCurrentTerm true) now' st2 = Ok (tt, st', tr') →
  mapGet (nextIndex st') peerId = len (log st)
  ∧ mapGet (matchIndex st') peerId = len (log st) - 1
  ∧ log st' = log st2.
Proof.
  intros Hl Hargs HL Hrun. unfold slice_ok in Hl.
  pose proof (len_nonneg (log st)) as Hn.
  assert (Hni : 0 <= ni <= len (log st)
                ∧ Entries args = drop (Z.to_nat ni) (log st)).
  { unfold sendAppendEntries_args in Hargs. unfold_M. simpl in Hargs.
    destruct (if int_sub (mapGet (nextIndex st) peerId) 1 >=? 0 then _ else _)
      as [[[pt s2] t2] | |]; try done.
    destruct (sliceFrom (log st) (mapGet (nextIndex st) peerId))
      as [entries | |] eqn:Hsl; simpl in Hargs; try done.
    simplify_eq. simpl. unfold sliceFrom in Hsl.
    destruct (_ || _) eqn:Hb; [done |]. bool_to_prop. simplify_eq. split; [lia | done]. }
  destruct Hni as [Hni Hent].
  assert (Hsum : int_add ni (len (Entries args)) = len (log st)).
  { unfold int_add. rewrite Hent. unfold len in *. rewrite length_drop.
    rewrite wrap_id by (unfold is_int, int_min, int_max in *; lia). lia. }
  assert (Hpred : int_sub (len (log st)) 1 = len (log st) - 1).
  { unfold int_sub. apply wrap_id. unfold is_int, int_min, int_max in *. lia. }
  unfold sendAppendEntries_reply in Hrun. unfold_M. simpl in Hrun.
  destruct (Z.gtb_spec savedCurrentTerm savedCurrentTerm); [lia |].
  rewrite bool_decide_eq_true_2, Z.eqb_refl in Hrun by done. simpl in Hrun.
  rewrite !Hsum in Hrun. unfold mapGet at 1 in Hrun.
  rewrite lookup_insert_eq in Hrun. simpl in Hrun. rewrite Hpred in Hrun.
  destruct (commitScan _ _ _ _) as [[[[] s2] t2] | |] eqn:Hscan; try done.
  apply commitScan_frame in Hscan as [c ->]. simpl in Hrun.
  destruct (negb (c =? commitIndex st2)); simpl in Hrun; simplify_eq; simpl;
    unfold mapGet; by rewrite !lookup_insert_eq.
Qed.

(** ** Persisting and restoring *)

(** What a start-up restores, in terms of what the storage holds. *)
Lemma restoreFromStorage_Restored cm (term voted : Z) (l : list (LogEntry Cmd)) :
  storageGet "currentTerm" (storage cm) = Some (GobInt term) →
  storageGet "votedFor" (storage cm) = Some (GobInt voted) →
  storageGet "log" (storage cm) = Some (GobLog l) →
  restoreFromStorage cm
  = Restored (set_log l (set_votedFor voted (set_currentTerm term cm))).
Proof.
  intros H1 H2 H3. unfold restoreFromStorage. simpl. by rewrite H1, H2, H3.
Qed.

(** X18. What [persistToStorage] writes, [restoreFromStorage] reads back
    at the next start: on the record a start-up constructs over the
    storage, it restores the three persistent fields as they were. *)
Theorem persist_restore_round_trip now st (id : Z) (peers : list Z) :
  ∃ st1,
    persistToStorage now st = Ok (tt, st1, [])
    ∧ restoreFromStorage (NewConsensusModule id peers (storage st1))
      = Restored (set_log (log st)
                    (set_votedFor (votedFor st)
                       (set_currentTerm (currentTerm st)
                          (NewConsensusModule id peers (storage st1))))).
Proof.
  destruct (persistToStorage_persisted now st) as (st1 & Hrun & Hp & Hst).
  exists st1. split; [exact Hrun |].
  destruct Hp as (H1 & H2 & H3).
  assert (Hf : currentTerm st1 = currentTerm st ∧ votedFor st1 = votedFor st
               ∧ log st1 = log st).
  { rewrite <- Hst. done. }
  destruct Hf as (<- & <- & <-).
  by apply restoreFromStorage_Restored.
Qed.

(** X19. On the record a start-up constructs, [restoreFromStorage] comes
    back exactly when the storage holds an integer under "currentTerm" and
    under "votedFor" and a log under "log", and then only these three
    fields differ from the record as constructed; a missing key ends the
    process. *)
Theorem restoreFromStorage_succeeds_iff (id : Z) (peers : list Z)
    (store : gmap string (Stored Cmd)) :
  (∀ r, restoreFromStorage (NewConsensusModule id peers store) = Restored r ↔
     ∃ term voted l,
       storageGet "currentTerm" store = Some (GobInt term)
       ∧ storageGet "votedFor" store = Some (GobInt voted)
       ∧ storageGet "log" store = Some (GobLog l)
       ∧ r = mkCM id peers term voted l (-1) (-1) Follower 0 ∅ ∅ store)
  ∧ (storageGet "currentTerm" store = None →
     restoreFromStorage (NewConsensusModule id peers store)
     = Fatal (NotFound "currentTerm not found in storage")).
Proof.
  split.
  - intros r. split.
    + unfold restoreFromStorage. simpl. intros H.
      repeat (case_match; simplify_eq; try done).
      unfold gobDecodeInt, gobDecodeLog in *.
      repeat (case_match; simplify_eq; try done).
      eauto 10.
    + intros (term & voted & l & H1 & H2 & H3 & ->).
      by rewrite (restoreFromStorage_Restored _ term voted l).
  - intros H. unfold restoreFromStorage. simpl. by rewrite H.
Qed.

(** X20. A command that [Submit] accepted is in the storage when [Submit]
    returns: starting up on that storage restores the log with the new
    entry at its end, and the term and the vote. *)
Theorem Submit_survives_restart (command : Cmd) now st (id : Z) (peers : list Z) :
  state st = Leader →
  ∃ st',
    Submit command now st
    = Ok (true, st', [EvLock; EvUnlock; EvSend Blocking triggerAEChan])
    ∧ persisted st'
    ∧ restoreFromStorage (NewConsensusModule id peers (storage st'))
      = Restored (set_log (log st ++ [mkLogEntry command (currentTerm st)])
                    (set_votedFor (votedFor st)
                       (set_currentTerm (currentTerm st)
                          (NewConsensusModule id peers (storage st'))))).
Proof.
  intros HL. unfold Submit, persistToStorage. unfold_M. simpl.
  rewrite decide_True by done. simpl.
  eexists. split; [reflexivity |]. split.
  - unfold persisted, storageGet, storageSet. simpl. by simplify_map_eq.
  - apply restoreFromStorage_Restored;
      unfold storageGet, storageSet; simpl; by simplify_map_eq.
Qed.

(** ** Delivering committed entries *)

Lemma slice_run {A : Type} (l : list A) (lo hi : Z) :
  0 <= lo <= hi → hi <= len l →
  slice l lo hi = Ok (take (Z.to_nat (hi - lo)) (drop (Z.to_nat lo) l)).
Proof.
  intros H1 H2. unfold slice.
  destruct (Z.ltb_spec lo 0); [lia |]. destruct (Z.ltb_spec hi lo); [lia |].
  destruct (Z.ltb_spec (len l) hi); [lia | done].
Qed.

Lemma set_lastApplied_id st : set_lastApplied (lastApplied st) st = st.
Proof. by destruct st. Qed.

(** One round of the commit loop, run to its end. *)
Lemma commitLoop_round_run now st :
  slice_ok (log st) →
  -1 <= lastApplied st <= commitIndex st →
  commitIndex st < len (log st) →
  commitLoop_round now st
  = Ok (imap (λ i entry,
                mkCommitEntry (Command entry) (lastApplied st + 1 + Z.of_nat i)
                  (currentTerm st))
          (take (Z.to_nat (commitIndex st - lastApplied st))
             (drop (Z.to_nat (lastApplied st + 1)) (log st))),
        set_lastApplied (commitIndex st) st,
        [EvLock; EvUnlock]).
Proof.
  intros Hl Ha Hc. unfold slice_ok in Hl.
  unfold commitLoop_round. unfold_M. simpl.
  destruct (Z.gtb_spec (commitIndex st) (lastApplied st)) as [Hgt | Hle].
  - unfold int_add at 1 2.
    rewrite !wrap_id by (unfold is_int, int_min, int_max in *; lia).
    rewrite slice_run by lia. simpl.
    replace (commitIndex st + 1 - (lastApplied st + 1))
      with (commitIndex st - lastApplied st) by lia.
    f_equal. f_equal. f_equal. apply imap_ext. intros i e Hi.
    apply lookup_lt_Some in Hi. rewrite length_take, length_drop in Hi.
    unfold int_add.
    rewrite (wrap_id (lastApplied st + Z.of_nat i))
      by (unfold is_int, int_min, int_max, len in *; lia).
    rewrite wrap_id by (unfold is_int, int_min, int_max, len in *; lia).
    f_equal. lia.
  - simpl. assert (commitIndex st = lastApplied st) as Heq by lia.
    rewrite Heq, Z.sub_diag. simpl. by rewrite set_lastApplied_id.
Qed.

(** X21. A round of the commit loop delivers the entries after
    [lastApplied] up to [commitIndex], in the order of the log, each with
    its index in the log and with the replica's current term (not the
    term of the entry), and moves [lastApplied] to [commitIndex]; nothing
    else changes. *)
Theorem commitLoop_round_delivers now st :
  slice_ok (log st) →
  -1 <= lastApplied st <= commitIndex st →
  commitIndex st < len (log st) →
  ∃ out,
    commitLoop_round now st
    = Ok (out, set_lastApplied (commitIndex st) st, [EvLock; EvUnlock])
    ∧ len out = commitIndex st - lastApplied st
    ∧ ∀ k : nat, Z.of_nat k < commitIndex st - lastApplied st →
        ∃ e, log st !! Z.to_nat (lastApplied st + 1 + Z.of_nat k) = Some e
             ∧ out !! k
               = Some (mkCommitEntry (Command e)
                         (lastApplied st + 1 + Z.of_nat k) (currentTerm st)).
Proof.
  intros Hl Ha Hc. rewrite (commitLoop_round_run now st Hl Ha Hc).
  eexists. split; [reflexivity |]. unfold slice_ok, len in *. split.
  - rewrite length_imap, length_take, length_drop. lia.
  - intros k Hk.
    destruct (lookup_lt_is_Some_2 (log st) (Z.to_nat (lastApplied st + 1 + Z.of_nat k))
                ltac:(lia)) as [e He].
    exists e. split; [exact He |].
    rewrite list_lookup_imap, lookup_take_lt by lia. rewrite lookup_drop.
    replace (Z.to_nat (lastApplied st + 1) + k)%nat
      with (Z.to_nat (lastApplied st + 1 + Z.of_nat k)) by lia.
    by rewrite He.
Qed.

(** X22. Right after a round, a further round (a surplus signal on the
    channel) delivers nothing and changes nothing: no entry is delivered
    twice. *)
Theorem commitLoop_round_twice (now now' : Time) st :
  slice_ok (log st) →
  -1 <= lastApplied st <= commitIndex st →
  commitIndex st < len (log st) →
  ∃ out st1,
    commitLoop_round now st = Ok (out, st1, [EvLock; EvUnlock])
    ∧ commitLoop_round now' st1 = Ok ([], st1, [EvLock; EvUnlock]).
Proof.
  intros Hl Ha Hc. rewrite (commitLoop_round_run now st Hl Ha Hc).
  eexists _, _. split; [reflexivity |].
  rewrite commitLoop_round_run by (simpl; first [done | lia]).
  simpl. rewrite Z.sub_diag. simpl. reflexivity.
Qed.

(** X23. Delivering in two rounds, with [commitIndex] moving from [c1] to
    [c2] in between, delivers what one round at [c2] delivers: the same
    entries in the same order, without gap or repetition. *)
Theorem commitLoop_rounds_compose (now1 now2 now3 : Time) st (c1 c2 : Z) :
  slice_ok (log st) →
  -1 <= lastApplied st <= c1 →
  c1 <= c2 < len (log st) →
  ∃ out1 st1 out2 st2 out,
    commitLoop_round now1 (set_commitIndex c1 st) = Ok (out1, st1, [EvLock; EvUnlock])
    ∧ commitLoop_round now2 (set_commitIndex c2 st1)
      = Ok (out2, st2, [EvLock; EvUnlock])
    ∧ commitLoop_round now3 (set_commitIndex c2 st) = Ok (out, st2, [EvLock; EvUnlock])
    ∧ out = out1 ++ out2.
Proof.
  intros Hl Ha Hc.
  eexists _, _, _, _, _.
  split; [apply commitLoop_round_run; simpl; first [done | lia] |].
  split; [apply commitLoop_round_run; simpl; first [done | lia] |].
  split.
  - rewrite commitLoop_round_run by (simpl; first [done | lia]). reflexivity.
  - simpl. unfold slice_ok, len in *.
    set (a := lastApplied st). set (X := drop (Z.to_nat (a + 1)) (log st)).
    replace (Z.to_nat (c2 - a)) with (Z.to_nat (c1 - a) + Z.to_nat (c2 - c1))%nat
      by lia.
    rewrite <- (take_take_drop X), imap_app. f_equal.
    subst X. rewrite drop_drop.
    replace (Z.to_nat (a + 1) + Z.to_nat (c1 - a))%nat with (Z.to_nat (c1 + 1))
      by lia.
    apply imap_ext. intros i e Hi. simpl.
    rewrite length_take, length_drop. f_equal. lia.
Qed.

(** ** The election timer *)

(** X24. A round of the election timer's loop starts an election exactly
    when the replica is a Candidate or a Follower, still in the term the
    timer started in, and the time since the last reset has reached the
    timeout; the election runs under the mutex.  In every other case the
    round changes nothing, and the timer goes on exactly when the replica
    is a Candidate or a Follower in the timer's term. *)
Theorem runElectionTimer_tick_fires_iff (timeoutDuration termStarted : Z) now st :
  (timerFires timeoutDuration termStarted now st →
   ∃ st1 tr1,
     startElection now st = Ok (tt, st1, tr1)
     ∧ runElectionTimer_tick timeoutDuration termStarted now st
       = Ok (true, st1, EvLock :: tr1 ++ [EvUnlock]))
  ∧ (¬ timerFires timeoutDuration termStarted now st →
     ∃ r,
       runElectionTimer_tick timeoutDuration termStarted now st
       = Ok (r, st, [EvLock; EvUnlock])
       ∧ (r = false ↔ (state st = Candidate ∨ state st = Follower)
                      ∧ termStarted = currentTerm st)).
Proof.
  unfold timerFires, runElectionTimer_tick. unfold_M. simpl.
  rewrite startElection_run. split.
  - intros ([Hs | Hs] & He & Hg); rewrite Hs; simpl;
      (destruct (Z.eqb_spec termStarted (currentTerm st)); [| done]); simpl;
      (destruct (Z.geb_spec (since now (electionResetEvent st)) timeoutDuration);
         [| lia]); simpl; rewrite ?startElection_run; eexists _, _; split; reflexivity.
  - intros Hn.
    destruct (state st) eqn:Hs; simpl;
      try (eexists; split; [reflexivity |]; split; [done |];
           intros [[? | ?] _]; done).
    all: destruct (Z.eqb_spec termStarted (currentTerm st)) as [He | He]; simpl;
      try (eexists; split; [reflexivity |]; split; [done |];
           intros [_ ?]; done).
    all: destruct (Z.geb_spec (since now (electionResetEvent st)) timeoutDuration)
           as [Hg | Hg]; simpl;
      [exfalso; apply Hn; repeat split; auto; lia |].
    all: eexists; split; [reflexivity |]; split; auto.
Qed.

(** X25. An AppendEntries that is not stale postpones the election: a
    round of the election timer that runs less than the timeout after it
    starts no election and changes nothing, and the timer goes on exactly
    when it was started in the term of the request. *)
Theorem AppendEntries_postpones_election (args : AppendEntriesArgs Cmd)
    (reply : AppendEntriesReply) (timeoutDuration termStarted : Z)
    (now now' : Time) st r st' tr :
  state st ≠ Dead →
  currentTerm st <= aeTerm args →
  AppendEntries args reply now st = Ok (r, st', tr) →
  0 < timeoutDuration →
  now' - now < timeoutDuration →
  runElectionTimer_tick timeoutDuration termStarted now' st'
  = Ok (negb (termStarted =? aeTerm args), st', [EvLock; EvUnlock]).
Proof.
  intros HD Ht Hrun Hd Hnow.
  destruct (AppendEntries_follower_of_term _ _ _ _ _ _ _ HD Ht Hrun)
    as (Hs & Hc & He & _).
  unfold runElectionTimer_tick. unfold_M. simpl.
  rewrite Hs, Hc, He. simpl.
  destruct (Z.eqb_spec termStarted (aeTerm args)); simpl; [| done].
  destruct (Z.geb_spec (since now' now) timeoutDuration) as [Hg | Hg]; [| done].
  unfold since, is_int, int_min, int_max in *. lia.
Qed.

(** X26. AppendEntries starts a new election timer exactly when it makes
    the replica a Follower: when the request's term is higher, or when it
    is the replica's term and the replica is not a Follower.  A Follower
    that receives the heartbeats of its term starts no goroutine. *)
Theorem AppendEntries_timer_iff (args : AppendEntriesArgs Cmd)
    (reply : AppendEntriesReply) now st r st' tr :
  state st ≠ Dead →
  AppendEntries args reply now st = Ok (r, st', tr) →
  (∀ t, EvGo t ∈ tr → t = runElectionTimerGo)
  ∧ (EvGo runElectionTimerGo ∈ tr
     ↔ currentTerm st < aeTerm args
       ∨ (aeTerm args = currentTerm st ∧ state st ≠ Follower)).
Proof.
  intros HD Hrun.
  unfold AppendEntries, becomeFollower in Hrun. unfold_M.
  break_run; bool_to_prop; simpl;
    (split; [intros t | ]);
    rewrite ?elem_of_app, ?elem_of_cons, ?elem_of_nil;
    try (intuition (first [congruence | lia])).
  all: split; [intuition congruence | intros [? | [_ ?]]; [lia | contradiction]].
Qed.

(** ** The timeout *)

(** X27. Whatever the environment and the random source give, the
    election timeout is at least 150 ms and less than 300 ms. *)
Theorem electionTimeout_range (env : string) (intn3 intn150 : Z) :
  0 <= intn150 < 150 →
  150 * Millisecond <= electionTimeout env intn3 intn150 < 300 * Millisecond.
Proof.
  intros H. unfold electionTimeout, int_mul, int_add, Millisecond.
  rewrite (wrap_id (150 + intn150)) by (unfold is_int, int_min, int_max; lia).
  rewrite !wrap_id by (unfold is_int, int_min, int_max; lia).
  case_match; lia.
Qed.

(** ** Stopping *)

(** X28. Stop makes the replica Dead and closes the channel; from then on
    Submit refuses every command, a round of the election timer ends the
    timer without an election, and Report says that the replica is no
    leader: none of them changes the record. *)
Theorem Stop_stops (command : Cmd) (timeoutDuration termStarted : Z)
    (now now1 now2 now3 : Time) st :
  ∃ st1,
    Stop false now st = Ok (true, st1, [EvLock; EvUnlock])
    ∧ st1 = set_state Dead st
    ∧ Submit command now1 st1 = Ok (false, st1, [EvLock; EvUnlock])
    ∧ runElectionTimer_tick timeoutDuration termStarted now2 st1
      = Ok (true, st1, [EvLock; EvUnlock])
    ∧ Report now3 st1 = Ok ((cm_id st, currentTerm st, false), st1, [EvLock; EvUnlock]).
Proof.
  eexists. split; [reflexivity |]. split; [reflexivity |].
  repeat split.
Qed.

(** X29. A reply to AppendEntries whose term is higher than the term the
    request was sent in makes the replica a Follower of the reply's term
    that has voted for nobody, and starts an election timer: whatever the
    state of the replica (a Dead one too) and whatever its current term (a
    later one than the reply's too, which is then lowered). *)
Theorem sendAppendEntries_reply_higher_term (peerId ni : Z)
    (entries : list (LogEntry Cmd)) (savedCurrentTerm : Z)
    (reply : AppendEntriesReply) now st :
  savedCurrentTerm < aeReplyTerm reply →
  ∃ st',
    sendAppendEntries_reply peerId ni entries savedCurrentTerm reply now st
    = Ok (tt, st', [EvLock; EvGo runElectionTimerGo; EvUnlock])
    ∧ state st' = Follower
    ∧ currentTerm st' = aeReplyTerm reply
    ∧ votedFor st' = -1
    ∧ electionResetEvent st' = now
    ∧ log st' = log st ∧ commitIndex st' = commitIndex st.
Proof.
  intros H. unfold sendAppendEntries_reply. unfold_M.
  destruct (Z.gtb_spec (aeReplyTerm reply) savedCurrentTerm); [| lia].
  rewrite becomeFollower_run. simpl. eexists. split; [reflexivity |]. done.
Qed.

End MoreProperties.

(** * Concrete runs *)

Module Runs.

Import Examples.

Lemma replica0_persisted : persisted replica0.
Proof. by vm_compute. Qed.

Lemma leader0_reached :
  startElection_reply 2 1 (mkRequestVoteReply 2 true) 10 candidate2
  = Ok (2, leader0, [EvLock; EvGo heartbeatGo; EvUnlock]).
Proof. vm_compute. reflexivity. Qed.

Lemma leader1_reached :
  Submit "c" 20 leader0
  = Ok (true, leader1, [EvLock; EvUnlock; EvSend Blocking triggerAEChan]).
Proof. vm_compute. reflexivity. Qed.

Lemma candidate0_reached : startElection 10 replica0 = Ok (tt, candidate0,
  [EvGo (requestVoteGo 1 1); EvGo (requestVoteGo 2 1);
   EvGo (requestVoteGo 3 1); EvGo (requestVoteGo 4 1);
   EvGo runElectionTimerGo]).
Proof. vm_compute. reflexivity. Qed.

(** C1. RequestVote on [replica0] grants the vote, moving [currentTerm]
    to 1 and [votedFor] to 2, and AppendEntries appends an entry; both
    reply without having written the storage, which still holds the old
    values. *)
Theorem handlers_reply_without_persisting :
  persisted replica0
  ∧ (∃ r st' tr,
       RequestVote voteFor2 reply0 100 replica0 = Ok (r, st', tr)
       ∧ r = mkRequestVoteReply 1 true
       ∧ currentTerm st' = 1 ∧ votedFor st' = 2
       ∧ storage st' = storage replica0
       ∧ ¬ persisted st')
  ∧ (∃ r st' tr,
       AppendEntries appendX aeReply0 100 replica0 = Ok (r, st', tr)
       ∧ r = mkAppendEntriesReply 1 true
       ∧ log st' = [mkLogEntry "x" 1]
       ∧ storage st' = storage replica0
       ∧ ¬ persisted st').
Proof.
  split; [apply replica0_persisted |]. split.
  - eexists _, _, _. split; [vm_compute; reflexivity |].
    repeat split; try reflexivity.
    intros (H & _). vm_compute in H. discriminate.
  - eexists _, _, _. split; [vm_compute; reflexivity |].
    repeat split; try reflexivity.
    intros (H & _). vm_compute in H. discriminate.
Qed.

(** ** One vote per term *)

(** C2.  Two votes of one replica in one term.  Replica 0 starts an
    election (term 1, vote for itself), then receives the AppendEntries of the leader of term 1, then
    the RequestVote of candidate 2 for term 1: its [votedFor] goes from 0
    to 2 while [currentTerm] stays 1 throughout.  And a leader of term 2
    that grants its vote for term 3 to candidate 1, and then handles a late
    reply (of term 3) to one of its own AppendEntries of term 2, enters
    [becomeFollower(3)] in term 3 and grants its vote for term 3 again, to
    candidate 2. *)
Lemma votedFor_changes_within_term :
  (∃ s1 s2 s3,
     runOps [(10, OpStartElection)] replica0 = Ok s1
     ∧ runOps [(20, OpAppendEntries heartbeatOf1 aeReply0)] s1 = Ok s2
     ∧ runOps [(30, OpRequestVote voteFor2 reply0)] s2 = Ok s3
     ∧ runOps [(20, OpAppendEntries heartbeatOf1 aeReply0);
               (30, OpRequestVote voteFor2 reply0)] s1 = Ok s3
     ∧ currentTerm s1 = 1 ∧ currentTerm s2 = 1 ∧ currentTerm s3 = 1
     ∧ votedFor s1 = 0 ∧ votedFor s3 = 2
     ∧ ¬ (votedFor s1 ≠ -1 → votedFor s3 ≠ -1 →
          currentTerm s3 = currentTerm s1 → votedFor s3 = votedFor s1))
  ∧ (∃ s1 s2 s3,
       RequestVote (mkRequestVoteArgs 3 1 1 1) reply0 20 leader0
       = Ok (mkRequestVoteReply 3 true, s1,
             [EvLock; EvGo runElectionTimerGo; EvUnlock])
       ∧ finalState (sendAppendEntries_reply 2 2 [] 2
                       (mkAppendEntriesReply 3 false) 30 s1) = Ok s2
       ∧ runOp (OpBecomeFollower 3) 30 s1 = Ok s2
       ∧ RequestVote (mkRequestVoteArgs 3 2 1 1) reply0 40 s2
         = Ok (mkRequestVoteReply 3 true, s3, [EvLock; EvUnlock])
       ∧ runOps [(30, OpBecomeFollower 3);
                 (40, OpRequestVote (mkRequestVoteArgs 3 2 1 1) reply0)] s1
         = Ok s3
       ∧ currentTerm s1 = 3 ∧ currentTerm s2 = 3 ∧ currentTerm s3 = 3
       ∧ votedFor s1 = 1 ∧ votedFor s3 = 2).
Proof.
  split.
  - eexists _, _, _.
    split; [vm_compute; reflexivity |].
    split; [vm_compute; reflexivity |].
    split; [vm_compute; reflexivity |].
    split; [vm_compute; reflexivity |].
    repeat split; try reflexivity.
    intros H. simpl in H. specialize (H ltac:(lia) ltac:(lia) eq_refl). lia.
  - eexists _, _, _.
    split; [vm_compute; reflexivity |].
    split; [vm_compute; reflexivity |].
    split; [vm_compute; reflexivity |].
    split; [vm_compute; reflexivity |].
    split; [vm_compute; reflexivity |].
    repeat split; reflexivity.
Qed.

Lemma voter0_reached :
  finalState (RequestVote voteFor2 reply0 15 replica0) = Ok voter0.
Proof. vm_compute. reflexivity. Qed.

(** What the second vote leads to, in a cluster of three.  Peers 1 and 2
    both stand for term 3.  The leader of term 2 grants its vote to
    candidate 1, which thereby has two votes of three and becomes Leader
    of term 3.  The old leader then handles the reply of peer 2 (of term
    3) to its AppendEntries of term 2, forgets its vote, and grants it to
    candidate 2, which becomes Leader of term 3 as well. *)
Lemma two_leaders_in_one_term :
  ∃ c1 c2 r1 r2 s1 s2 s3 l1 l2 tr1 tr2 tr3 tr4 tr5 tr6 tr7,
    startElection 15 peer1 = Ok (tt, c1, tr1)
    ∧ startElection 16 peer2 = Ok (tt, c2, tr2)
    ∧ RequestVote (mkRequestVoteArgs 3 1 1 1) reply0 20 leader0 = Ok (r1, s1, tr3)
    ∧ startElection_reply 3 1 r1 25 c1 = Ok (2, l1, tr4)
    ∧ AppendEntries (mkAppendEntriesArgs 2 0 1 1 [] (-1)) aeReply0 27 c2
      = Ok (mkAppendEntriesReply 3 false, c2, [EvLock; EvUnlock])
    ∧ sendAppendEntries_reply 2 2 [] 2 (mkAppendEntriesReply 3 false) 30 s1
      = Ok (tt, s2, tr5)
    ∧ RequestVote (mkRequestVoteArgs 3 2 1 1) reply0 40 s2 = Ok (r2, s3, tr6)
    ∧ startElection_reply 3 1 r2 45 c2 = Ok (2, l2, tr7)
    ∧ cm_id s1 = 0 ∧ cm_id s3 = 0
    ∧ currentTerm s1 = 3 ∧ votedFor s1 = 1
    ∧ currentTerm s3 = 3 ∧ votedFor s3 = 2
    ∧ state l1 = Leader ∧ currentTerm l1 = 3 ∧ cm_id l1 = 1
    ∧ state l2 = Leader ∧ currentTerm l2 = 3 ∧ cm_id l2 = 2.
Proof.
  eexists _, _, _, _, _, _, _, _, _, _, _, _, _, _, _, _.
  split; [vm_compute; reflexivity |].
  split; [vm_compute; reflexivity |].
  split; [vm_compute; reflexivity |].
  split; [vm_compute; reflexivity |].
  split; [vm_compute; reflexivity |].
  split; [vm_compute; reflexivity |].
  split; [vm_compute; reflexivity |].
  split; [vm_compute; reflexivity |].
  repeat split; reflexivity.
Qed.

(** ** The leader and an unsuccessful reply *)

(** C3, counterexample.  The leader builds a request for peer 1 twice from
    [nextIndex[1] = 2] (a heartbeat and a triggered send, both in flight).
    The first unsuccessful reply moves [nextIndex[1]] to 1; on the second
    it stays 1, where the claim has max(1 - 1, 0) = 0.  And for a request
    built from [ni = 0] an unsuccessful reply leaves -1, below 0. *)
Lemma nextIndex_not_clamped_decrement :
  (∃ args tr0 st1 tr1 st2 tr2,
     sendAppendEntries_args 1 2 20 leader0 = Ok ((2, args), leader0, tr0)
     ∧ sendAppendEntries_reply 1 2 (Entries args) 2 failed2 30 leader0
       = Ok (tt, st1, tr1)
     ∧ sendAppendEntries_reply 1 2 (Entries args) 2 failed2 40 st1
       = Ok (tt, st2, tr2)
     ∧ state st1 = Leader
     ∧ mapGet (nextIndex st1) 1 = 1
     ∧ mapGet (nextIndex st2) 1 = 1
     ∧ mapGet (nextIndex st2) 1 ≠ Z.max (mapGet (nextIndex st1) 1 - 1) 0)
  ∧ (∃ st0 st' tr,
       st0 = set_nextIndex {[ 1 := 0; 2 := 0 ]} leader0
       ∧ sendAppendEntries_reply 1 0 (log st0) 2 failed2 30 st0 = Ok (tt, st', tr)
       ∧ mapGet (nextIndex st0) 1 = 0
       ∧ mapGet (nextIndex st') 1 = -1
       ∧ mapGet (nextIndex st') 1 ≠ Z.max (mapGet (nextIndex st0) 1 - 1) 0).
Proof.
  split.
  - eexists _, _, _, _, _, _.
    split; [vm_compute; reflexivity |].
    split; [vm_compute; reflexivity |].
    split; [vm_compute; reflexivity |].
    repeat split; try (vm_compute; reflexivity). vm_compute. discriminate.
  - eexists _, _, _. split; [reflexivity |].
    split; [vm_compute; reflexivity |].
    repeat split; try (vm_compute; reflexivity). vm_compute. discriminate.
Qed.

Lemma sendAppendEntries_reply_failure_witness :
  ∃ st',
    sendAppendEntries_reply 1 2 [] 2 failed2 30 leader0
    = Ok (tt, st', [EvLock; EvUnlock])
    ∧ st' = set_nextIndex (<[1 := int_sub 2 1]> (nextIndex leader0)) leader0
    ∧ mapGet (nextIndex st') 1 = int_sub 2 1
    ∧ (int_min < 2 → is_int 2 → mapGet (nextIndex st') 1 = 2 - 1)
    ∧ (mapGet (nextIndex leader0) 1 = 2 → 1 <= 2 → is_int 2 →
       mapGet (nextIndex st') 1 = Z.max (mapGet (nextIndex leader0) 1 - 1) 0).
Proof.
  apply (sendAppendEntries_reply_failure 1 2 [] 2 failed2 30 leader0);
    reflexivity.
Defined.

(** ** Channel sends and the mutex *)



(** ** Witnesses of the remaining theorems *)

(** Peer 1 acknowledges the entry of term 2: the scan passes over the two
    entries of term 1 and commits index 2. *)
Lemma commitIndex_advance_witness :
  ∃ st' tr,
    sendAppendEntries_reply 1 2 [mkLogEntry "c" 2] 2 (mkAppendEntriesReply 2 true)
      30 leader1 = Ok (tt, st', tr)
    ∧ log st' = log leader1
    ∧ currentTerm st' = currentTerm leader1
    ∧ peerIds st' = peerIds leader1
    ∧ matchIndex st' = <[1 := 2]> (matchIndex leader1)
    ∧ (commitIndex st' = commitIndex leader1
       ∨ (commitIndex leader1 < commitIndex st' < len (log leader1)
          ∧ committable st' (commitIndex st')))
    ∧ (∀ j, commitIndex leader1 < j < len (log leader1) →
            committable st' j → j <= commitIndex st').
Proof.
  apply (commitIndex_advance 1 2 [mkLogEntry "c" 2] 2 (mkAppendEntriesReply 2 true)
           30 leader1); try reflexivity.
  - vm_compute. split; [discriminate | reflexivity].
  - vm_compute. discriminate.
  - vm_compute. discriminate.
Defined.

Lemma commitIndex_advance_run :
  ∃ st',
    sendAppendEntries_reply 1 2 [mkLogEntry "c" 2] 2 (mkAppendEntriesReply 2 true)
      30 leader1
    = Ok (tt, st', [EvLock; EvSend Blocking newCommitReadyChan;
                    EvSend Blocking triggerAEChan; EvUnlock])
    ∧ commitIndex st' = 2
    ∧ ∃ st'',
        sendAppendEntries_reply 1 2 [] 2 (mkAppendEntriesReply 2 true) 30 leader0
        = Ok (tt, st'', [EvLock; EvUnlock])
        ∧ mapGet (matchIndex st'') 1 = 1
        ∧ commitIndex st'' = -1.
Proof.
  eexists. split; [vm_compute; reflexivity |]. split; [reflexivity |].
  eexists. split; [vm_compute; reflexivity |]. split; reflexivity.
Qed.

Lemma RequestVote_grant_iff_witness :
  ∃ r st' tr,
    RequestVote voteFor2 reply0 15 replica0 = Ok (r, st', tr)
    ∧ VotedGranted r = true
    ∧ votedFor st' = 2
    ∧ rvReplyTerm r = 1.
Proof.
  destruct (RequestVote_grant_iff voteFor2 reply0 15 replica0)
    as (r & st' & tr & Hrun & Hiff & Hgrant & _ & Hterm & Hct).
  - vm_compute. discriminate.
  - vm_compute. discriminate.
  - exists r, st', tr. split; [exact Hrun |].
    assert (Hg : VotedGranted r = true).
    { apply Hiff. vm_compute. repeat split; auto. right. split; [reflexivity | discriminate]. }
    split; [exact Hg |]. split; [exact (Hgrant Hg) |].
    rewrite Hterm, Hct. reflexivity.
Defined.


(** A replica on its closed channel.  The leader of term 2 is stopped; the
    reply of term 3 to one of its requests then makes it a Follower again
    (the reply handler has no test for Dead), and the next AppendEntries
    that moves its [commitIndex] panics on the send. *)
Lemma revived_replica_panics :
  ∃ s1 s2,
    Stop false 50 leader0 = Ok (true, s1, [EvLock; EvUnlock])
    ∧ state s1 = Dead
    ∧ sendAppendEntries_reply 1 2 [] 2 (mkAppendEntriesReply 3 false) 60 s1
      = Ok (tt, s2, [EvLock; EvGo runElectionTimerGo; EvUnlock])
    ∧ state s2 = Follower ∧ currentTerm s2 = 3
    ∧ logConsistent (log s2) 1 1
    ∧ withChannel true
        (AppendEntries (mkAppendEntriesArgs 3 1 1 1 [mkLogEntry "c" 3] 1) aeReply0)
        70 s2
      = Panic.
Proof.
  eexists _, _. split; [vm_compute; reflexivity |]. split; [reflexivity |].
  split; [vm_compute; reflexivity |]. split; [reflexivity |].
  split; [reflexivity |]. split; [| vm_compute; reflexivity].
  right. split; [reflexivity |]. eexists. split; reflexivity.
Qed.

Lemma reconciled_reached :
  AppendEntries appendZ aeReply0 30 diverged
  = Ok (mkAppendEntriesReply 2 true, reconciled,
        [EvLock; EvGo runElectionTimerGo;
         EvSend Blocking newCommitReadyChan; EvUnlock]).
Proof. vm_compute. reflexivity. Qed.

Lemma AppendEntries_idempotent_witness :
  ∃ r2 st2 tr2,
    AppendEntries appendZ aeReply0 40 reconciled = Ok (r2, st2, tr2)
    ∧ Success r2 = true
    ∧ log st2 = log reconciled.
Proof.
  apply (AppendEntries_idempotent appendZ aeReply0 aeReply0 30 40 diverged
           (mkAppendEntriesReply 2 true) reconciled
           [EvLock; EvGo runElectionTimerGo;
            EvSend Blocking newCommitReadyChan; EvUnlock]).
  - vm_compute. reflexivity.
  - vm_compute. discriminate.
  - reflexivity.
  - vm_compute. discriminate.
Defined.

Lemma AppendEntries_stale_term_witness :
  AppendEntries heartbeatOf1 aeReply0 30 (set_currentTerm 2 diverged)
  = Ok (mkAppendEntriesReply 2 false, set_currentTerm 2 diverged,
        [EvLock; EvUnlock]).
Proof.
  apply (AppendEntries_stale_term heartbeatOf1 aeReply0 30
           (set_currentTerm 2 diverged)).
  - vm_compute. discriminate.
  - reflexivity.
Defined.

End Runs.

(** * Concrete runs of the further properties *)

Module MoreRuns.

Import Examples MoreExamples.

Lemma handlers_ignore_on_Dead_witness :
  RequestVote voteFor2 reply0 20 stopped = Ok (reply0, stopped, [EvLock; EvUnlock])
  ∧ AppendEntries appendX aeReply0 20 stopped
    = Ok (aeReply0, stopped, [EvLock; EvUnlock]).
Proof.
  apply (handlers_ignore_on_Dead voteFor2 reply0 appendX aeReply0 20 stopped).
  reflexivity.
Defined.

Lemma RequestVote_stale_term_witness :
  RequestVote voteFor2 reply0 30 (set_currentTerm 2 diverged)
  = Ok (mkRequestVoteReply 2 false, set_currentTerm 2 diverged, [EvLock; EvUnlock]).
Proof.
  apply (RequestVote_stale_term voteFor2 reply0 30 (set_currentTerm 2 diverged)).
  - vm_compute. discriminate.
  - vm_compute. discriminate.
  - reflexivity.
Defined.

Lemma handlers_term_is_max_witness :
  (∃ r st' tr,
     RequestVote voteFor2 reply0 15 replica0 = Ok (r, st', tr)
     ∧ currentTerm st' = Z.max (currentTerm replica0) (rvTerm voteFor2)
     ∧ rvReplyTerm r = currentTerm st')
  ∧ (∃ r st' tr,
       AppendEntries appendX aeReply0 15 replica0 = Ok (r, st', tr)
       ∧ currentTerm st' = Z.max (currentTerm replica0) (aeTerm appendX)
       ∧ aeReplyTerm r = currentTerm st').
Proof.
  destruct (handlers_term_is_max voteFor2 reply0 appendX aeReply0 15 replica0)
    as [Hrv Hae].
  - vm_compute. discriminate.
  - split.
    + eexists _, _, _. split; [vm_compute; reflexivity |].
      eapply Hrv. vm_compute. reflexivity.
    + eexists _, _, _. split; [vm_compute; reflexivity |].
      eapply Hae. vm_compute. reflexivity.
Defined.

Lemma RequestVote_frame_witness :
  ∃ r st' tr,
    RequestVote voteFor2 reply0 15 replica0 = Ok (r, st', tr)
    ∧ log st' = log replica0 ∧ commitIndex st' = commitIndex replica0
    ∧ lastApplied st' = lastApplied replica0
    ∧ nextIndex st' = nextIndex replica0 ∧ matchIndex st' = matchIndex replica0
    ∧ cm_id st' = cm_id replica0 ∧ peerIds st' = peerIds replica0
    ∧ storage st' = storage replica0
    ∧ hasSend tr = false.
Proof.
  eexists _, _, _. split; [vm_compute; reflexivity |].
  eapply (RequestVote_frame voteFor2 reply0 15 replica0).
  vm_compute. reflexivity.
Defined.

Lemma RequestVote_grant_repeated_witness :
  ∃ st2 tr2,
    RequestVote voteFor2 reply0 25 voter0 = Ok (mkRequestVoteReply 1 true, st2, tr2)
    ∧ currentTerm st2 = currentTerm voter0
    ∧ votedFor st2 = votedFor voter0
    ∧ state st2 = state voter0.
Proof.
  eapply (RequestVote_grant_repeated voteFor2 reply0 reply0 15 25 replica0
            (mkRequestVoteReply 1 true) voter0).
  - vm_compute. discriminate.
  - vm_compute. reflexivity.
  - reflexivity.
Defined.

Lemma RequestVote_other_candidate_denied_witness :
  ∃ r st' tr,
    RequestVote voteFor3 reply0 20 voter0 = Ok (r, st', tr)
    ∧ VotedGranted r = false ∧ st' = voter0.
Proof.
  eexists _, _, _. split; [vm_compute; reflexivity |].
  eapply (RequestVote_other_candidate_denied voteFor3 reply0 20 voter0).
  - vm_compute. discriminate.
  - vm_compute. discriminate.
  - vm_compute. discriminate.
  - vm_compute. discriminate.
  - vm_compute. reflexivity.
Defined.

Lemma AppendEntries_steps_down_witness :
  ∃ r st' tr,
    AppendEntries heartbeatOf1 aeReply0 30 candidate0 = Ok (r, st', tr)
    ∧ state st' = Follower
    ∧ currentTerm st' = aeTerm heartbeatOf1
    ∧ electionResetEvent st' = 30
    ∧ aeReplyTerm r = aeTerm heartbeatOf1.
Proof.
  eexists _, _, _. split; [vm_compute; reflexivity |].
  eapply (AppendEntries_steps_down heartbeatOf1 aeReply0 30 candidate0).
  - vm_compute. discriminate.
  - vm_compute. discriminate.
  - vm_compute. reflexivity.
Defined.

Lemma AppendEntries_log_agrees_witness :
  ∃ r st' tr,
    AppendEntries appendZ aeReply0 30 diverged = Ok (r, st', tr)
    ∧ let n := Z.to_nat (PrevLogIndex appendZ + 1) in
      take n (log st') = take n (log diverged)
      ∧ ∀ k b, Entries appendZ !! k = Some b →
          ∃ e, log st' !! (n + k)%nat = Some e
               ∧ Term e = Term b
               ∧ (e = b ∨ log diverged !! (n + k)%nat = Some e).
Proof.
  eexists _, _, _. split; [vm_compute; reflexivity |].
  eapply (AppendEntries_log_agrees appendZ aeReply0 30 diverged).
  - vm_compute. discriminate.
  - vm_compute. discriminate.
  - vm_compute. discriminate.
  - vm_compute. reflexivity.
  - reflexivity.
Defined.

Lemma AppendEntries_present_entries_keep_log_witness :
  ∃ r st' tr,
    AppendEntries appendZ aeReply0 40 reconciled = Ok (r, st', tr)
    ∧ log st' = log reconciled.
Proof.
  eexists _, _, _. split; [vm_compute; reflexivity |].
  eapply (AppendEntries_present_entries_keep_log appendZ aeReply0 40 reconciled).
  - vm_compute. discriminate.
  - vm_compute. discriminate.
  - vm_compute. discriminate.
  - vm_compute. reflexivity.
  - reflexivity.
  - intros [| [| k]] b Hb; try discriminate.
    injection Hb as <-. eexists. split; reflexivity.
Defined.

Lemma AppendEntries_reject_frame_witness :
  ∃ r st' tr,
    AppendEntries appendZ aeReply0 30 (set_currentTerm 2 replica0) = Ok (r, st', tr)
    ∧ Success r = false
    ∧ log st' = log replica0 ∧ commitIndex st' = commitIndex replica0
    ∧ lastApplied st' = lastApplied replica0 ∧ storage st' = storage replica0
    ∧ hasSend tr = false.
Proof.
  eexists _, _, _. split; [vm_compute; reflexivity |]. split; [reflexivity |].
  eapply (AppendEntries_reject_frame appendZ aeReply0 30 (set_currentTerm 2 replica0)).
  - vm_compute. discriminate.
  - vm_compute. reflexivity.
  - reflexivity.
Defined.

Lemma AppendEntries_commit_rule_witness :
  ∃ r st' tr,
    AppendEntries appendZ aeReply0 30 diverged = Ok (r, st', tr)
    ∧ (LeaderCommit appendZ > commitIndex diverged →
       commitIndex st' = Z.min (LeaderCommit appendZ) (len (log st') - 1)
       ∧ commitIndex st' < len (log st')
       ∧ sendsOf false tr = [(newCommitReadyChan, Blocking, true)])
    ∧ (LeaderCommit appendZ <= commitIndex diverged →
       commitIndex st' = commitIndex diverged ∧ sendsOf false tr = []).
Proof.
  eexists _, _, _. split; [vm_compute; reflexivity |].
  eapply (AppendEntries_commit_rule appendZ aeReply0 30 diverged).
  - vm_compute. discriminate.
  - vm_compute. discriminate.
  - vm_compute. reflexivity.
  - reflexivity.
Defined.

Lemma startElection_reply_counts_witness :
  ∃ st' tr,
    startElection_reply 2 1 granted2 20 candidate2 = Ok (2, st', tr)
    ∧ state st' = Leader
    ∧ tr = [EvLock; EvGo heartbeatGo; EvUnlock].
Proof.
  destruct (startElection_reply_counts 2 1 granted2 20 candidate2)
    as (st' & tr & Hrun & Hwins & _).
  - vm_compute. discriminate.
  - vm_compute. split; [discriminate | reflexivity].
  - vm_compute. discriminate.
  - exists st', tr. split; [exact Hrun |]. apply Hwins. reflexivity.
Defined.

Lemma sendAppendEntries_reply_dropped_witness :
  sendAppendEntries_reply 1 2 [] 2 (mkAppendEntriesReply 1 true) 30 leader0
  = Ok (tt, leader0, [EvLock; EvUnlock]).
Proof.
  apply (sendAppendEntries_reply_dropped 1 2 [] 2 (mkAppendEntriesReply 1 true)
           30 leader0).
  - vm_compute. discriminate.
  - left. reflexivity.
Defined.

Lemma sendAppendEntries_args_builds_witness :
  ∃ prevLogTerm,
    sendAppendEntries_args 1 2 20 leader1
    = Ok ((2, mkAppendEntriesArgs 2 0 1 prevLogTerm [mkLogEntry "c" 2] (-1)),
          leader1, [EvLock; EvUnlock])
    ∧ (2 = 0 → prevLogTerm = -1)
    ∧ (0 < 2 → ∃ e, log leader1 !! Z.to_nat (2 - 1) = Some e
                    ∧ prevLogTerm = Term e).
Proof.
  destruct (sendAppendEntries_args_builds 1 2 20 leader1) as [Hin _].
  - vm_compute. discriminate.
  - vm_compute. split; discriminate.
  - apply Hin. vm_compute. split; discriminate.
Defined.

Lemma AppendEntries_of_leader_replicates_witness :
  ∃ ni args tr follower' tr',
    sendAppendEntries_args 1 2 20 leader1 = Ok ((ni, args), leader1, tr)
    ∧ withChannel false (AppendEntries args aeReply0) 30 follower1
      = Ok (mkAppendEntriesReply 2 true, follower', tr')
    ∧ log follower' = log leader1.
Proof.
  destruct (AppendEntries_of_leader_replicates 1 2 aeReply0 false 20 30
              leader1 follower1 2)
    as (ni & args & tr & Hargs & _ & Hok).
  - vm_compute. discriminate.
  - vm_compute. discriminate.
  - vm_compute. discriminate.
  - reflexivity.
  - vm_compute. split; discriminate.
  - vm_compute. lia.
  - destruct Hok as (f' & tr' & Hrun & Hlog); [by intros [? _] |].
    by exists ni, args, tr, f', tr'.
Defined.

(** The same request on a follower whose channel is closed, from a leader
    that has committed its first entry. *)
Lemma closed_follower_panics :
  ∃ args tr,
    sendAppendEntries_args 1 2 20 (set_commitIndex 0 leader1)
    = Ok ((2, args), set_commitIndex 0 leader1, tr)
    ∧ withChannel true (AppendEntries args aeReply0) 30 follower1 = Panic.
Proof.
  eexists _, _. split; [vm_compute; reflexivity |].
  vm_compute. reflexivity.
Qed.

Lemma sendAppendEntries_success_bookkeeping_witness :
  ∃ ni args tr st' tr',
    sendAppendEntries_args 1 2 20 leader1 = Ok ((ni, args), leader1, tr)
    ∧ sendAppendEntries_reply 1 ni (Entries args) 2 (mkAppendEntriesReply 2 true)
        30 leader1 = Ok (tt, st', tr')
    ∧ mapGet (nextIndex st') 1 = len (log leader1)
    ∧ mapGet (matchIndex st') 1 = len (log leader1) - 1
    ∧ log st' = log leader1.
Proof.
  eexists _, _, _, _, _. split; [vm_compute; reflexivity |].
  split; [vm_compute; reflexivity |].
  eapply (sendAppendEntries_success_bookkeeping 1 2 20 30 leader1 _ _ _
            leader1 leader1).
  - vm_compute. discriminate.
  - vm_compute. reflexivity.
  - reflexivity.
  - vm_compute. reflexivity.
Defined.

Lemma Submit_survives_restart_witness :
  ∃ st',
    Submit "c" 20 leader0
    = Ok (true, st', [EvLock; EvUnlock; EvSend Blocking triggerAEChan])
    ∧ persisted st'
    ∧ restoreFromStorage (NewConsensusModule 0 [1; 2] (storage st'))
      = Restored (set_log (log leader0 ++ [mkLogEntry "c" (currentTerm leader0)])
                    (set_votedFor (votedFor leader0)
                       (set_currentTerm (currentTerm leader0)
                          (NewConsensusModule 0 [1; 2] (storage st'))))).
Proof.
  apply (Submit_survives_restart "c" 20 leader0 0 [1; 2]). reflexivity.
Defined.

Lemma commitLoop_round_delivers_witness :
  ∃ out,
    commitLoop_round 40 committed1
    = Ok (out, set_lastApplied (commitIndex committed1) committed1,
          [EvLock; EvUnlock])
    ∧ len out = commitIndex committed1 - lastApplied committed1
    ∧ ∀ k : nat, Z.of_nat k < commitIndex committed1 - lastApplied committed1 →
        ∃ e, log committed1 !! Z.to_nat (lastApplied committed1 + 1 + Z.of_nat k)
             = Some e
             ∧ out !! k
               = Some (mkCommitEntry (Command e)
                         (lastApplied committed1 + 1 + Z.of_nat k)
                         (currentTerm committed1)).
Proof.
  apply (commitLoop_round_delivers 40 committed1).
  - vm_compute. discriminate.
  - vm_compute. split; discriminate.
  - vm_compute. reflexivity.
Defined.

Lemma commitLoop_round_twice_witness :
  ∃ out st1,
    commitLoop_round 40 committed1 = Ok (out, st1, [EvLock; EvUnlock])
    ∧ commitLoop_round 50 st1 = Ok ([], st1, [EvLock; EvUnlock]).
Proof.
  apply (commitLoop_round_twice 40 50 committed1).
  - vm_compute. discriminate.
  - vm_compute. split; discriminate.
  - vm_compute. reflexivity.
Defined.

Lemma commitLoop_rounds_compose_witness :
  ∃ out1 st1 out2 st2 out,
    commitLoop_round 40 (set_commitIndex 0 leader1)
    = Ok (out1, st1, [EvLock; EvUnlock])
    ∧ commitLoop_round 50 (set_commitIndex 2 st1)
      = Ok (out2, st2, [EvLock; EvUnlock])
    ∧ commitLoop_round 60 (set_commitIndex 2 leader1)
      = Ok (out, st2, [EvLock; EvUnlock])
    ∧ out = out1 ++ out2.
Proof.
  apply (commitLoop_rounds_compose 40 50 60 leader1 0 2).
  - vm_compute. discriminate.
  - vm_compute. split; discriminate.
  - vm_compute. split; [discriminate | reflexivity].
Defined.

Lemma AppendEntries_postpones_election_witness :
  ∃ r st' tr,
    AppendEntries heartbeatOf1 aeReply0 30 candidate0 = Ok (r, st', tr)
    ∧ runElectionTimer_tick (150 * Millisecond) 1 (30 + 100 * Millisecond) st'
      = Ok (negb (1 =? aeTerm heartbeatOf1), st', [EvLock; EvUnlock]).
Proof.
  eexists _, _, _. split; [vm_compute; reflexivity |].
  eapply (AppendEntries_postpones_election heartbeatOf1 aeReply0
            (150 * Millisecond) 1 30 (30 + 100 * Millisecond) candidate0).
  - vm_compute. discriminate.
  - vm_compute. discriminate.
  - vm_compute. reflexivity.
  - reflexivity.
  - reflexivity.
Defined.

Lemma AppendEntries_timer_iff_witness :
  ∃ r st' tr,
    AppendEntries heartbeatOf1 aeReply0 30 candidate0 = Ok (r, st', tr)
    ∧ (∀ t, EvGo t ∈ tr → t = runElectionTimerGo)
    ∧ (EvGo runElectionTimerGo ∈ tr
       ↔ currentTerm candidate0 < aeTerm heartbeatOf1
         ∨ (aeTerm heartbeatOf1 = currentTerm candidate0
            ∧ state candidate0 ≠ Follower)).
Proof.
  eexists _, _, _. split; [vm_compute; reflexivity |].
  eapply (AppendEntries_timer_iff heartbeatOf1 aeReply0 30 candidate0).
  - vm_compute. discriminate.
  - vm_compute. reflexivity.
Defined.

Lemma electionTimeout_range_witness :
  150 * Millisecond <= electionTimeout "" 0 42 < 300 * Millisecond.
Proof. apply (electionTimeout_range "" 0 42). lia. Defined.

Lemma sendAppendEntries_reply_higher_term_witness :
  ∃ st',
    sendAppendEntries_reply 1 2 [] 1 (mkAppendEntriesReply 2 false) 30 later3
    = Ok (tt, st', [EvLock; EvGo runElectionTimerGo; EvUnlock])
    ∧ state st' = Follower
    ∧ currentTerm st' = 2
    ∧ votedFor st' = -1
    ∧ electionResetEvent st' = 30
    ∧ log st' = log later3 ∧ commitIndex st' = commitIndex later3.
Proof.
  apply (sendAppendEntries_reply_higher_term 1 2 [] 1 (mkAppendEntriesReply 2 false)
           30 later3).
  reflexivity.
Defined.

(** The timer of the Candidate of term 1, 200 ms after the last reset,
    starts the election of term 2. *)
Lemma runElectionTimer_tick_fires_iff_witness :
  ∃ st1 tr1,
    startElection (10 + 200 * Millisecond) candidate0 = Ok (tt, st1, tr1)
    ∧ runElectionTimer_tick (150 * Millisecond) 1 (10 + 200 * Millisecond) candidate0
      = Ok (true, st1, EvLock :: tr1 ++ [EvUnlock])
    ∧ currentTerm st1 = 2.
Proof.
  destruct (runElectionTimer_tick_fires_iff (150 * Millisecond) 1
              (10 + 200 * Millisecond) candidate0) as [Hfires _].
  destruct Hfires as (st1 & tr1 & Hrun & Htick).
  - vm_compute. repeat split; auto. discriminate.
  - exists st1, tr1. split; [exact Hrun |]. split; [exact Htick |].
    vm_compute in Hrun. by simplify_eq.
Defined.

End MoreRuns.
